(** * panoramisk: the Manager / Connection protocol core

    A shallow embedding of [panoramisk/manager.py]: the framing of the byte
    stream into blocks ([Connection.data_received]), the routing of decoded
    messages to pending actions or to the event registry, the registry itself
    ([Manager.register_event], [Manager.dispatch]) and the connection life
    cycle ([close], [connection_lost], [Manager.connection_made], [login]).

    Python text is a list of code points, bytes are [Byte.byte]s, dicts are
    [gmap]s, and the effects of a method (transport writes, callback calls,
    sleeps, timers, log lines) are appended to an explicit trace. *)

From Stdlib Require Import NArith Strings.Byte Strings.Ascii Strings.String.
From stdpp Require Import base option list gmap.
From Equations Require Import Equations.

Set Default Proof Using "Type".
Open Scope N_scope.

(** ** Text and bytes *)

(** A Python [str] is a sequence of Unicode code points. *)
Definition char : Type := N.
Definition text : Type := list char.
Definition bytes : Type := list byte.

(** [s.startswith(p)]. *)
Fixpoint startswith (p s : text) : bool :=
  match p, s with
  | [], _ => true
  | _ :: _, [] => false
  | a :: p', b :: s' => (a =? b) && startswith p' s'
  end.

(** [s.partition(sep)] for a separator that occurs in [s]: the text before
    the leftmost occurrence of [sep] and the text after it; [None] when
    [sep] does not occur. *)
Fixpoint partition (sep s : text) : option (text * text) :=
  if startswith sep s then Some ([], drop (length sep) s)
  else match s with
       | [] => None
       | c :: s' =>
           match partition sep s' with
           | Some (before, after) => Some (c :: before, after)
           | None => None
           end
       end.

Definition inspect {A} (a : A) : {b : A | a = b} := exist _ a eq_refl.

(** The loop of [s.split(sep)] for the non-empty separator [c :: cs]:
    cut at the leftmost occurrence, go on after it. *)
Equations? split_loop (c : char) (cs : text) (s : text) : list text
  by wf (length s) lt :=
  split_loop c cs s with inspect (partition (c :: cs) s) := {
    | exist _ (Some (before, after)) E => before :: split_loop c cs after
    | exist _ None _ => [s] }.
Proof.
  clear split_loop. revert before after E.
  induction s as [|x s IH]; intros before after; simpl; [discriminate|].
  destruct (_ && _).
  - intros [= <- <-]. pose proof (length_drop s (length cs)). lia.
  - destruct (partition (c :: cs) s) as [[b a]|]; [|discriminate].
    intros [= <- <-]. specialize (IH _ _ eq_refl). lia.
Qed.

(** [s.split(sep)]: Python raises [ValueError] on the empty separator. *)
Definition split (sep s : text) : option (list text) :=
  match sep with
  | [] => None
  | c :: cs => Some (split_loop c cs s)
  end.

(** [sep.join(parts)]. *)
Fixpoint join (sep : text) (parts : list text) : text :=
  match parts with
  | [] => []
  | [x] => x
  | x :: rest => x ++ sep ++ join sep rest
  end.

(** [str.isspace] on one code point: the characters [s.strip()] removes. *)
Definition isspace (c : char) : bool :=
  ((9 <=? c) && (c <=? 13)) || ((28 <=? c) && (c <=? 32))
  || (c =? 0x85) || (c =? 0xA0) || (c =? 0x1680)
  || ((0x2000 <=? c) && (c <=? 0x200A))
  || (c =? 0x2028) || (c =? 0x2029) || (c =? 0x202F) || (c =? 0x205F)
  || (c =? 0x3000).

Fixpoint lstrip (s : text) : text :=
  match s with
  | [] => []
  | c :: s' => if isspace c then lstrip s' else s
  end.

Definition rstrip (s : text) : text := rev (lstrip (rev s)).

(** [s.strip()]. *)
Definition strip (s : text) : text := rstrip (lstrip s).

(** ** [bytes.decode(encoding, 'ignore')]

    The codecs the source names: ['ascii'] (the fallback of
    [Connection.data_received]) and ['utf8'] (the Manager's default). *)
Inductive Encoding := Ascii | Utf8.

(** ASCII with the [ignore] handler: bytes above 127 are dropped. *)
Fixpoint decode_ascii (bs : list N) : text :=
  match bs with
  | [] => []
  | b :: r => if b <? 0x80 then b :: decode_ascii r else decode_ascii r
  end.

Definition is_cont (b : N) : bool := (0x80 <=? b) && (b <=? 0xBF).

(** The range the second byte of a three-byte sequence must lie in. *)
Definition second_of_3 (b0 b1 : N) : bool :=
  if b0 =? 0xE0 then (0xA0 <=? b1) && (b1 <=? 0xBF)
  else if b0 =? 0xED then (0x80 <=? b1) && (b1 <=? 0x9F)
  else is_cont b1.

(** The range the second byte of a four-byte sequence must lie in. *)
Definition second_of_4 (b0 b1 : N) : bool :=
  if b0 =? 0xF0 then (0x90 <=? b1) && (b1 <=? 0xBF)
  else if b0 =? 0xF4 then (0x80 <=? b1) && (b1 <=? 0x8F)
  else is_cont b1.

(** UTF-8 with the [ignore] handler, as CPython decodes a whole [bytes]
    object: an invalid start byte is skipped; a sequence broken by a byte
    that cannot continue it loses the bytes read so far and decoding resumes
    at the offending byte; a sequence cut short by the end of the data is
    dropped. *)
Fixpoint decode_utf8 (bs : list N) : text :=
  match bs with
  | [] => []
  | b0 :: r =>
      if b0 <? 0x80 then b0 :: decode_utf8 r
      else if (0xC2 <=? b0) && (b0 <=? 0xDF) then
        match r with
        | [] => []
        | b1 :: r1 =>
            if is_cont b1
            then ((b0 - 0xC0) * 64 + (b1 - 0x80)) :: decode_utf8 r1
            else decode_utf8 r
        end
      else if (0xE0 <=? b0) && (b0 <=? 0xEF) then
        match r with
        | [] => []
        | b1 :: r1 =>
            if second_of_3 b0 b1 then
              match r1 with
              | [] => []
              | b2 :: r2 =>
                  if is_cont b2
                  then ((b0 - 0xE0) * 4096 + (b1 - 0x80) * 64 + (b2 - 0x80))
                       :: decode_utf8 r2
                  else decode_utf8 r1
              end
            else decode_utf8 r
        end
      else if (0xF0 <=? b0) && (b0 <=? 0xF4) then
        match r with
        | [] => []
        | b1 :: r1 =>
            if second_of_4 b0 b1 then
              match r1 with
              | [] => []
              | b2 :: r2 =>
                  if is_cont b2 then
                    match r2 with
                    | [] => []
                    | b3 :: r3 =>
                        if is_cont b3
                        then ((b0 - 0xF0) * 262144 + (b1 - 0x80) * 4096
                              + (b2 - 0x80) * 64 + (b3 - 0x80))
                             :: decode_utf8 r3
                        else decode_utf8 r2
                    end
                  else decode_utf8 r1
              end
            else decode_utf8 r
        end
      else decode_utf8 r
  end.

(** [data.decode(encoding, 'ignore')]. *)
Definition decode (encoding : Encoding) (data : bytes) : text :=
  match encoding with
  | Ascii => decode_ascii (map Byte.to_N data)
  | Utf8 => decode_utf8 (map Byte.to_N data)
  end.

(** The code points a [str] can be encoded from: the Unicode scalar
    values, that is all code points but the surrogates. *)
Definition is_scalar (c : char) : bool :=
  (c <? 0xD800) || ((0xDFFF <? c) && (c <? 0x110000)).

(** ** Objects, exceptions and effects *)

(** The value of an [.id] attribute: a [str], or Python's [None]. *)
Definition Key : Type := option text.

(** The identity of a Manager object: what [self] denotes in its methods. *)
Definition ManagerRef : Type := nat.

(** A Python dict literal with text keys and values, in source order. *)
Definition dict : Type := list (text * text).

Inductive exn :=
| CallbackError      (* whatever a subscriber's callback raises *)
| KeyError
| ValueError
| AttributeError
| OSError
| TransportError     (* whatever [transport.close()] raises *)
| InvalidStateError
| CancelledError.

Inductive outcome (A : Type) :=
| Returns (a : A)
| Raises (e : exn).
Arguments Returns {A} a.
Arguments Raises {A} e.

(** A Message object: the content [Message.from_line] built, and the
    instance attribute [manager] that [Manager.dispatch] assigns. *)
Record Message (D : Type) := {
  msg_data : D;
  msg_manager : option ManagerRef
}.
Arguments msg_data {D} _.
Arguments msg_manager {D} _.

(** What an Action's future resolves to: one Message, or the whole
    sequence for a list-mode Action. *)
Inductive Result (D : Type) :=
| Single (m : Message D)
| Many (ms : list (Message D)).
Arguments Single {D} m.
Arguments Many {D} ms.

(** The state of an [asyncio.Future]. *)
Inductive Future (D : Type) :=
| Pending
| Resolved (r : Result D)
| Failed (e : exn)
| Cancelled.
Arguments Pending {D}.
Arguments Resolved {D} r.
Arguments Failed {D} e.
Arguments Cancelled {D}.

(** The modules [manager.py] imports and that are not among the sources
    ([message.py], [actions.py], [utils.py]), and the standard library's
    [re] and [fnmatch]: the model takes them as an interface. *)
Class Collaborators := {
  (* message.py *)
  MessageData : Type;
  from_line : text -> option MessageData;        (* Message.from_line(line) *)
  msg_id : MessageData -> Key;                    (* message.id *)
  msg_contains_Event : MessageData -> bool;       (* 'Event' in message *)
  msg_event : MessageData -> text;                (* event.event *)
  msg_success : MessageData -> bool;              (* bool(resp.success) *)
  (* actions.py; [uid] stands for the identifier a constructor draws *)
  Action : Type;
  Action_new : bool -> dict -> bool -> text -> Action;
                  (* actions.Command(data, as_list) when the first argument
                     is true, actions.Action(data, as_list) otherwise *)
  action_update : Action -> dict -> Action;       (* action.update(kwargs) *)
  action_id : Action -> Key;                      (* data.id, response.id *)
  action_future : Action -> Future MessageData;   (* data.future *)
  action_encoded : Action -> bytes;               (* str(data).encode('utf8') *)
  add_message : Action -> Message MessageData -> Action * bool;
                  (* response.add_message(message): the Action afterwards
                     and the value returned *)
  (* utils.py *)
  EOL : text;
  (* re, fnmatch *)
  Regexp : Type;
  re_compile_translate : text -> Regexp;  (* re.compile(fnmatch.translate(p)) *)
  re_match : Regexp -> text -> bool       (* regexp.match(s) is not None *)
}.

(** The text of an ASCII literal of the source. *)
Definition txt (s : String.string) : text :=
  map Ascii.N_of_ascii (String.list_ascii_of_string s).
Arguments txt s%_string.

Section Model.
Context `{Collaborators}.

Local Abbreviation Msg := (Message MessageData).

(** A subscriber's callback: a function object, and whether calling it
    with a given event raises. *)
Record Callback := {
  cb_name : nat;
  cb_raises : Msg -> bool
}.

Inductive Timer := Timer_connect | Timer_ping.
Inductive DoneCallback := Done_login.

(** What the methods do to the world outside the two objects. *)
Inductive Effect :=
| Log_message (m : option Msg)  (* log.debug('message interpreted: %r', m) *)
| Log_info                      (* log.info('Manager connected') *)
| Log_exception                 (* log.exception(e) *)
| Call (cb : Callback) (event : Msg) (mgr : ManagerRef) (* callback(event, self) *)
| Transport_write (data : bytes)
| Transport_close
| Sleep (seconds : N)           (* time.sleep: the calling thread waits *)
| Call_later (seconds : N) (what : Timer)  (* loop.call_later: returns at once *)
| Connect                       (* Manager.connect(): a Task is created *)
| Add_done_callback (fut : Key) (cb : DoneCallback).

Definition Trace : Type := list Effect.

(** Methods thread the object they mutate and the trace, and may raise.
    An exception does not undo what was done before it. *)
Definition M (S A : Type) : Type := S -> Trace -> outcome A * S * Trace.

Definition ret {S A} (a : A) : M S A := fun s t => (Returns a, s, t).

Definition raise {S A} (e : exn) : M S A := fun s t => (Raises e, s, t).

Definition bind {S A B} (m : M S A) (k : A -> M S B) : M S B :=
  fun s t =>
    match m s t with
    | (Returns a, s', t') => k a s' t'
    | (Raises e, s', t') => (Raises e, s', t')
    end.

Definition emit {S} (e : Effect) : M S unit :=
  fun s t => (Returns tt, s, t ++ [e]).

Definition get {S} : M S S := fun s t => (Returns s, s, t).

Definition modify {S} (f : S -> S) : M S unit :=
  fun s t => (Returns tt, f s, t).

Notation "'let*' x ':=' m 'in' k" := (bind m (fun x => k))
  (at level 10, x name, m at level 100, k at level 200).
Notation "m1 ';;' m2" := (bind m1 (fun _ => m2))
  (at level 100, m2 at level 200, right associativity).

(** [for x in l: body(x)]. *)
Fixpoint for_each {S A} (l : list A) (body : A -> M S unit) : M S unit :=
  match l with
  | [] => ret tt
  | x :: l' => body x ;; for_each l' body
  end.

(** ** The two classes *)

(** The transport asyncio hands to the protocol; [tr_close_raises] tells
    whether its [close()] raises. *)
Record Transport := {
  tr_close_raises : bool
}.

(** The attributes of a Connection that its methods read or write.
    [queue] is the content of the [utils.Queue], oldest item first;
    [encoding] is absent until [Manager.connection_made] assigns it. The
    object [self.factory] refers to is passed to the methods that use it. *)
Record Connection := {
  transport : Transport;
  closed : bool;
  queue : list text;
  responses : gmap Key Action;
  encoding : option Encoding
}.

Definition set_closed (b : bool) (c : Connection) : Connection :=
  {| transport := transport c; closed := b; queue := queue c;
     responses := responses c; encoding := encoding c |}.

Definition set_queue (q : list text) (c : Connection) : Connection :=
  {| transport := transport c; closed := closed c; queue := q;
     responses := responses c; encoding := encoding c |}.

Definition set_responses (r : gmap Key Action) (c : Connection) : Connection :=
  {| transport := transport c; closed := closed c; queue := queue c;
     responses := r; encoding := encoding c |}.

Definition set_encoding (e : option Encoding) (c : Connection) : Connection :=
  {| transport := transport c; closed := closed c; queue := queue c;
     responses := responses c; encoding := e |}.

(** The options of [Manager.defaults] and the credentials; the keys
    [username] and [secret] may be absent from the dict. *)
Record Config := {
  host : text;
  port : N;
  ssl : bool;
  cfg_encoding : Encoding;
  username : option text;
  secret : option text
}.

(** The attributes of a Manager. [self.responses] is the very dict of the
    current protocol and has no field of its own. *)
Record Manager := {
  self_ref : ManagerRef;
  config : Config;
  callbacks : gmap text (list Callback);
  protocol : option Connection;
  patterns : list (text * Regexp);
  authenticated : bool;
  authenticated_future : option Key
}.

Definition set_callbacks (cbs : gmap text (list Callback)) (m : Manager) :=
  {| self_ref := self_ref m; config := config m; callbacks := cbs;
     protocol := protocol m; patterns := patterns m;
     authenticated := authenticated m;
     authenticated_future := authenticated_future m |}.

Definition set_protocol (p : option Connection) (m : Manager) :=
  {| self_ref := self_ref m; config := config m; callbacks := callbacks m;
     protocol := p; patterns := patterns m;
     authenticated := authenticated m;
     authenticated_future := authenticated_future m |}.

Definition set_patterns (ps : list (text * Regexp)) (m : Manager) :=
  {| self_ref := self_ref m; config := config m; callbacks := callbacks m;
     protocol := protocol m; patterns := ps;
     authenticated := authenticated m;
     authenticated_future := authenticated_future m |}.

Definition set_authenticated (b : bool) (m : Manager) :=
  {| self_ref := self_ref m; config := config m; callbacks := callbacks m;
     protocol := protocol m; patterns := patterns m;
     authenticated := b;
     authenticated_future := authenticated_future m |}.

Definition set_authenticated_future (f : option Key) (m : Manager) :=
  {| self_ref := self_ref m; config := config m; callbacks := callbacks m;
     protocol := protocol m; patterns := patterns m;
     authenticated := authenticated m;
     authenticated_future := f |}.

(** Run a method of the current protocol from a method of the Manager;
    [self.protocol] being [None] is an [AttributeError]. *)
Definition on_protocol {A} (f : M Connection A) : M Manager A :=
  fun m t =>
    match protocol m with
    | None => (Raises AttributeError, m, t)
    | Some p => let '(r, p', t') := f p t in (r, set_protocol (Some p') m, t')
    end.

(** *** Connection *)

(** [Connection.connection_made(transport)]. *)
Definition Connection_connection_made (tr : Transport) : Connection :=
  {| transport := tr; closed := false; queue := [];
     responses := ∅; encoding := None |}.

Inductive SendData :=
| Data_action (a : Action)
| Data_dict (d : dict).

Definition dict_contains (k : text) (d : dict) : bool :=
  existsb (fun kv => bool_decide (kv.1 = k)) d.

(** [Connection.send(data, as_list)]. The future it returns is named by
    the identifier of the Action that owns it. *)
Definition send (uid : text) (data : SendData) (as_list : bool)
  : M Connection Key :=
  let data :=
    match data with
    | Data_action a => a
    | Data_dict d => Action_new (dict_contains (txt "Command") d) d as_list uid
    end in
  emit (Transport_write (action_encoded data)) ;;
  modify (fun c => set_responses (<[action_id data := data]> (responses c)) c) ;;
  ret (action_id data).

(** [Connection.close()]: [try: transport.close() finally: closed = True]. *)
Definition Connection_close : M Connection unit :=
  let* c := get in
  if closed c then ret tt
  else
    emit Transport_close ;;
    modify (set_closed true) ;;
    if tr_close_raises (transport c) then raise TransportError else ret tt.

(** *** Manager: the event registry *)

(** [Manager.__init__] with the keyword arguments [config]. *)
Definition Manager_init (ref : ManagerRef) (cfg : Config) : Manager :=
  {| self_ref := ref; config := cfg; callbacks := ∅; protocol := None;
     patterns := []; authenticated := false; authenticated_future := None |}.

(** [self.callbacks[pattern]] on the [defaultdict(list)]. *)
Definition callbacks_of (m : Manager) (pattern : text) : list Callback :=
  default [] (callbacks m !! pattern).

(** The inner function of [register_event], closed over [self] and
    [pattern]. *)
Definition _register_event (pattern : text) (callback : Callback)
  : M Manager Callback :=
  modify (fun m =>
    set_patterns (patterns m ++ [(pattern, re_compile_translate pattern)]) m) ;;
  modify (fun m =>
    set_callbacks
      (<[pattern := callbacks_of m pattern ++ [callback]]> (callbacks m)) m) ;;
  ret callback.

(** What [register_event] returns: the callback it was given, or the
    closure [_register_event] for [pattern]. *)
Inductive Registered :=
| The_callback (f : Callback)
| The_registrar (pattern : text).

(** [Manager.register_event(pattern, callback=None)]. *)
Definition register_event (pattern : text) (callback : option Callback)
  : M Manager Registered :=
  match callback with
  | Some callback =>
      let* f := _register_event pattern callback in ret (The_callback f)
  | None => ret (The_registrar pattern)
  end.

(** Applying the value [register_event] returned to a callback, as a
    decorator does. Only the closure is callable in the model. *)
Definition apply_registered (r : Registered) (callback : Callback)
  : M Manager Callback :=
  match r with
  | The_registrar pattern => _register_event pattern callback
  | The_callback _ => raise CallbackError
  end.

(** [callback(event, self)]. *)
Definition call (callback : Callback) (self : ManagerRef) : M Msg unit :=
  let* event := get in
  emit (Call callback event self) ;;
  if cb_raises callback event then raise CallbackError else ret tt.

(** [event.manager = self]. *)
Definition set_manager (self : ManagerRef) (event : Msg) : Msg :=
  {| msg_data := msg_data event; msg_manager := Some self |}.

(** The loop of [dispatch] over [self.patterns]; the two nested loops
    over [self.callbacks[pattern]] are the source's. *)
Fixpoint dispatch_loop (m : Manager) (ps : list (text * Regexp))
    (matches : list text) : M Msg (list text) :=
  match ps with
  | [] => ret matches
  | (pattern, regexp) :: ps' =>
      let* event := get in
      if re_match regexp (msg_event (msg_data event)) then
        let matches := matches ++ [pattern] in
        for_each (callbacks_of m pattern) (fun _ =>
          for_each (callbacks_of m pattern) (fun callback =>
            call callback (self_ref m))) ;;
        dispatch_loop m ps' matches
      else dispatch_loop m ps' matches
  end.

(** [Manager.dispatch(event)]; the state is the event object. *)
Definition dispatch (m : Manager) : M Msg (list text) :=
  modify (set_manager (self_ref m)) ;;
  dispatch_loop m (patterns m) [].

(** *** Connection: framing and routing *)

(** Run a method on a Message from a method of the Connection. *)
Definition on_event {A} (f : M Msg A) (event : Msg) : M Connection A :=
  fun c t => let '(r, _, t') := f event t in (r, c, t').

(** [self.responses.pop(key)]. *)
Definition pop (key : Key) : M Connection unit :=
  let* c := get in
  match responses c !! key with
  | Some _ => modify (set_responses (delete key (responses c)))
  | None => raise KeyError
  end.

(** Lines 54-60 of [data_received]: what happens to one decoded message.
    The Action found in the table is the object [add_message] mutates, so
    the table holds the Action as it is afterwards. *)
Definition route (factory : option Manager) (message : Msg)
  : M Connection unit :=
  let* c := get in
  match responses c !! msg_id (msg_data message) with
  | Some response =>
      let '(response, completed) := add_message response message in
      modify (fun c =>
        set_responses
          (<[msg_id (msg_data message) := response]> (responses c)) c) ;;
      if completed then pop (action_id response) else ret tt
  | None =>
      if msg_contains_Event (msg_data message) then
        match factory with
        | Some m => let* _ := on_event (dispatch m) message in ret tt
        | None => raise AttributeError
        end
      else ret tt
  end.

(** The body of the loop over the complete blocks. *)
Definition handle_line (factory : option Manager) (line : text)
  : M Connection unit :=
  let line := strip line in
  let message :=
    option_map (fun d => {| msg_data := d; msg_manager := None |})
               (from_line line) in
  emit (Log_message message) ;;
  match message with
  | None => ret tt
  | Some message => route factory message
  end.

(** [Connection.data_received(data)]. *)
Definition data_received (factory : option Manager) (data : bytes)
  : M Connection unit :=
  let* c := get in
  let data := decode (default Ascii (encoding c)) data in
  let* data :=
    match queue c with
    | [] => ret data
    | item :: rest => modify (set_queue rest) ;; ret (item ++ data)
    end in
  match split (EOL ++ EOL) data with
  | None => raise ValueError
  | Some lines =>
      modify (fun c => set_queue (queue c ++ [List.last lines []]) c) ;;
      for_each (removelast lines) (handle_line factory)
  end.

(** [Connection.connection_lost(exc)]. *)
Definition connection_lost (factory : option Manager) : M Connection unit :=
  let* c := get in
  if closed c then ret tt
  else
    Connection_close ;;
    emit (Sleep 2) ;;
    match factory with
    | Some _ => emit Connect
    | None => raise AttributeError
    end.

(** *** Manager: orchestration *)

(** [d[k] = v] on a dict literal. *)
Fixpoint dict_set (k v : text) (d : dict) : dict :=
  match d with
  | [] => [(k, v)]
  | (k', v') :: d' =>
      if bool_decide (k' = k) then (k, v) :: d' else (k', v') :: dict_set k v d'
  end.

(** [action.update(kwargs)]. *)
Definition update (action : SendData) (kwargs : dict) : SendData :=
  match action with
  | Data_action a => Data_action (action_update a kwargs)
  | Data_dict d =>
      Data_dict (fold_left (fun d kv => dict_set kv.1 kv.2 d) kwargs d)
  end.

(** [Manager.connect()]: a Task for [loop.create_connection], with
    [connection_made] as its done-callback. *)
Definition connect : M Manager unit := emit Connect.

(** [Manager.send_action(action, as_list=False, **kwargs)]. *)
Definition send_action (uid : text) (action : SendData) (as_list : bool)
    (kwargs : dict) : M Manager Key :=
  on_protocol (send uid (update action kwargs) as_list).

(** [Manager.send_command(command, agi=False, as_list=False)]. *)
Definition send_command (uid : text) (command : text) (agi as_list : bool)
  : M Manager Key :=
  let action :=
    if agi
    then Action_new true
           [(txt "Command", command); (txt "Action", txt "AGI")] as_list uid
    else Action_new false
           [(txt "Command", command); (txt "Action", txt "Command")] as_list uid
  in
  send_action uid (Data_action action) false [].

(** [Manager.close()]. *)
Definition Manager_close : M Manager unit :=
  let* m := get in
  match protocol m with
  | Some _ => on_protocol Connection_close
  | None => ret tt
  end.

(** [Manager.connection_made(f)]. [f.result()] raises, or gives the
    transport and the protocol asyncio built on it, on which
    [Connection.connection_made(transport)] has run. *)
Definition Manager_connection_made (uid : text) (f : outcome Transport)
  : M Manager unit :=
  Manager_close ;;
  match f with
  | Raises OSError =>
      emit Log_exception ;;
      emit (Call_later 2 Timer_connect)
  | Raises e => raise e
  | Returns tr =>
      emit Log_info ;;
      let* m := get in
      modify (set_protocol (Some
        (set_responses ∅
          (set_encoding (Some (cfg_encoding (config m)))
            (set_queue [] (Connection_connection_made tr)))))) ;;
      match username (config m) with
      | Some user =>
          modify (set_authenticated false) ;;
          match secret (config m) with
          | None => raise KeyError
          | Some pass =>
              let* fut :=
                send_action uid
                  (Data_dict [(txt "Action", txt "Login");
                              (txt "Username", user);
                              (txt "Secret", pass)]) false [] in
              modify (set_authenticated_future (Some fut)) ;;
              emit (Add_done_callback fut Done_login)
          end
      | None => ret tt
      end ;;
      emit (Call_later 10 Timer_ping)
  end.

(** [Manager.login(future)]; [future] is the state of the future object
    at the time of the call. *)
Definition login (future : Future MessageData) : M Manager bool :=
  modify (set_authenticated_future None) ;;
  match future with
  | Resolved (Single resp) =>
      modify (set_authenticated (msg_success (msg_data resp))) ;;
      let* m := get in ret (authenticated m)
  | Resolved (Many _) => raise AttributeError
  | Pending => raise InvalidStateError
  | Failed e => raise e
  | Cancelled => raise CancelledError
  end.

(** [Manager.ping()]. *)
Definition ping (uid : text) : M Manager unit :=
  let* _ := on_protocol
              (send uid (Data_dict [(txt "Action", txt "Ping")]) false) in
  emit (Call_later 10 Timer_ping).

(** Feeding chunks one after the other, one [data_received] per chunk,
    as long as no call raises. *)
Definition feed (factory : option Manager) (chunks : list bytes)
  : M Connection unit :=
  for_each chunks (data_received factory).

(** *** Vocabulary of the properties *)

(** The result of a method, with the object changed by [h]. *)
Definition with_state {S A} (h : S -> S) (x : outcome A * S * Trace)
  : outcome A * S * Trace :=
  let '(r, s, t) := x in (r, h s, t).

(** A method of the Connection that neither reads nor writes the
    carry-over queue and leaves the encoding alone. *)
Definition framed {A} (f : M Connection A) : Prop :=
  (forall q c t, f (set_queue q c) t = with_state (set_queue q) (f c t))
  /\ (forall c t, encoding (f c t).1.2 = encoding c).

(** The pattern strings of the registry entries whose matcher accepts the
    event's name, in registration order, one per entry. *)
Definition matching (m : Manager) (event : Msg) : list text :=
  map fst (List.filter (fun pr => re_match pr.2 (msg_event (msg_data event)))
                       (patterns m)).

(** One call of each callback of [cbs] with [(event, self)], in order. *)
Definition calls (self : ManagerRef) (event : Msg) (cbs : list Callback)
  : Trace :=
  map (fun cb => Call cb event self) cbs.

(** The calls [dispatch] makes for the entries [ps]: for a matching
    entry, the whole list of the pattern's callbacks, once for each
    callback in that list. *)
Definition dispatch_calls (m : Manager) (event : Msg)
    (ps : list (text * Regexp)) : Trace :=
  flat_map (fun pr =>
    if re_match pr.2 (msg_event (msg_data event))
    then flat_map (fun _ => calls (self_ref m) event (callbacks_of m pr.1))
                  (callbacks_of m pr.1)
    else []) ps.

(** No callback that [dispatch] reaches for this event raises. *)
Definition no_raise (m : Manager) (event : Msg) : Prop :=
  forall pattern regexp cb,
    (pattern, regexp) ∈ patterns m ->
    re_match regexp (msg_event (msg_data event)) = true ->
    cb ∈ callbacks_of m pattern ->
    cb_raises cb (set_manager (self_ref m) event) = false.

(** The Manager once [callback] has been registered under [pattern]: one
    more registry entry, with the matcher compiled from [pattern], and the
    callback recorded after those already under that pattern string. *)
Definition registration (pattern : text) (callback : Callback) (m : Manager)
  : Manager :=
  set_callbacks
    (<[pattern := callbacks_of m pattern ++ [callback]]> (callbacks m))
    (set_patterns (patterns m ++ [(pattern, re_compile_translate pattern)]) m).

(** Every Action that was pending in [before] has a failed completion
    handle in [after]. *)
Definition pending_failed (before after : Connection) : Prop :=
  forall key a,
    responses before !! key = Some a -> action_future a = Pending ->
    exists a' e, responses after !! key = Some a' /\ action_future a' = Failed e.

(** The Login action [Manager.connection_made] builds. *)
Definition Login (uid user pass : text) : Action :=
  Action_new false
    [(txt "Action", txt "Login"); (txt "Username", user); (txt "Secret", pass)]
    false uid.

(** Every Action of the pending table is filed under its own identifier. *)
Definition filed_by_id (c : Connection) : Prop :=
  forall key a, responses c !! key = Some a -> action_id a = key.

(** Decoding the chunks one by one gives what decoding them joined
    gives, at every chunk boundary. *)
Fixpoint decodes_chunkwise (enc : Encoding) (chunks : list bytes) : Prop :=
  match chunks with
  | [] => True
  | chunk :: rest =>
      decode enc (chunk ++ concat rest)
      = decode enc chunk ++ decode enc (concat rest)
      /\ decodes_chunkwise enc rest
  end.

(** The Action [send] writes and files: [data] itself when it is an
    Action already, the Action or Command built from the dict otherwise. *)
Definition sent_action (uid : text) (data : SendData) (as_list : bool)
  : Action :=
  match data with
  | Data_action a => a
  | Data_dict d => Action_new (dict_contains (txt "Command") d) d as_list uid
  end.

(** A method every run of which is a step of the relation [R] between
    the object and trace before and after. *)
Definition steps {S A} (R : S * Trace -> S * Trace -> Prop) (f : M S A)
  : Prop :=
  forall s t, R (s, t) ((f s t).1.2, (f s t).2).

(** The effects of the receiving path: a log line, or a callback call. *)
Definition is_log_or_call (e : Effect) : bool :=
  match e with
  | Log_message _ | Call _ _ _ => true
  | _ => false
  end.

(** [register_event(pattern, callback)] for each pair of [regs], in
    order. *)
Definition register_all (regs : list (text * Callback)) (m : Manager)
  : Manager :=
  fold_left (fun m r => (register_event r.1 (Some r.2) m []).1.2) regs m.

(** The call a matching registration is due: its callback, once. *)
Definition due_calls (self : ManagerRef) (event : Msg)
    (regs : list (text * Callback)) : Trace :=
  flat_map (fun r =>
    if re_match (re_compile_translate r.1) (msg_event (msg_data event))
    then [Call r.2 event self] else []) regs.

(** The trace after is the trace before followed by log lines and
    callback calls only. *)
Definition only_adds {S} (x y : S * Trace) : Prop :=
  exists added,
    y.2 = x.2 ++ added /\ Forall (fun e => is_log_or_call e = true) added.

(** The registry, the configuration and the identity of the Manager are
    the same before and after. *)
Definition keeps_registry (x y : Manager * Trace) : Prop :=
  patterns y.1 = patterns x.1 /\ callbacks y.1 = callbacks x.1
  /\ config y.1 = config x.1 /\ self_ref y.1 = self_ref x.1.

End Model.

(** ** A reference instance of the collaborators

    The model is run on concrete inputs with the definitions below. They
    follow the spec's description of the absent modules and the protocol's
    wire format; every general theorem holds for any instance. *)
Module Reference.

(** Modelled from the spec: [utils.EOL] ([utils.py] is not among the
    sources), the protocol's line terminator, carriage return and line
    feed. *)
Definition EOL : text := [13; 10].

(** ASCII lower case, for the case-insensitive field names. *)
Definition lower (c : char) : char :=
  if (65 <=? c) && (c <=? 90) then c + 32 else c.

(** Modelled from the spec: the content of a Message ([message.py] is not
    among the sources), an ordered mapping from case-insensitive field name
    to value; names are kept in lower case. *)
Definition Fields : Type := list (text * text).

Fixpoint field (name : text) (fs : Fields) : option text :=
  match fs with
  | [] => None
  | (k, v) :: fs' => if bool_decide (k = name) then Some v else field name fs'
  end.

(** One [Key: Value] line; the value is what follows the first colon and
    space. A line without them carries no field. *)
Definition parse_line (line : text) : list (text * text) :=
  match partition (txt ": ") line with
  | Some (k, v) => [(map lower k, v)]
  | None => []
  end.

(** Modelled from the spec: [Message.from_line]. An empty block gives no
    Message. *)
Definition from_line (block : text) : option Fields :=
  match block with
  | [] => None
  | _ => Some (concat (map parse_line (split_loop 13 [10] block)))
  end.

Definition msg_id (fs : Fields) : Key := field (txt "actionid") fs.

Definition msg_contains_Event (fs : Fields) : bool :=
  bool_decide (is_Some (field (txt "event") fs)).

Definition msg_event (fs : Fields) : text :=
  default [] (field (txt "event") fs).

(** Modelled from the spec: the success derivation, the status field
    compared without regard to case with the accepted tokens; an event
    counts as a success, as the repository's test of events expects. *)
Definition msg_success (fs : Fields) : bool :=
  if msg_contains_Event fs then true
  else
    match field (txt "response") fs with
    | Some r =>
        bool_decide (map lower r ∈
                       [txt "success"; txt "follows"; txt "goodbye"])
    | None => false
    end.

(** Modelled from the spec: an Action ([actions.py] is not among the
    sources): identifier, parameters, list-mode flag, accumulated
    responses and completion handle. *)
Record Action := {
  a_id : Key;
  a_fields : dict;
  a_as_list : bool;
  a_responses : list (Message Fields);
  a_future : Future Fields
}.

Fixpoint dict_get (k : text) (d : dict) : option text :=
  match d with
  | [] => None
  | (k', v) :: d' => if bool_decide (k' = k) then Some v else dict_get k d'
  end.

(** The constructor: the identifier the caller gave, or the one drawn. *)
Definition Action_new (is_command : bool) (d : dict) (as_list : bool)
    (uid : text) : Action :=
  {| a_id := Some (default uid (dict_get (txt "ActionID") d));
     a_fields := d; a_as_list := as_list; a_responses := [];
     a_future := Pending |}.

Definition action_update (a : Action) (kwargs : dict) : Action :=
  {| a_id := a_id a;
     a_fields := fold_left (fun d kv => dict_set kv.1 kv.2 d) kwargs (a_fields a);
     a_as_list := a_as_list a; a_responses := a_responses a;
     a_future := a_future a |}.

(** Modelled from the spec: the accumulation step. A plain Action
    completes on its first Message; a list-mode Action completes on the
    Message that carries the completion marker, here the field
    [EventList: Complete]. *)
Definition add_message (a : Action) (m : Message Fields) : Action * bool :=
  let rs := a_responses a ++ [m] in
  let completed :=
    if a_as_list a
    then bool_decide (field (txt "eventlist") (msg_data m) = Some (txt "Complete"))
    else true in
  ({| a_id := a_id a; a_fields := a_fields a; a_as_list := a_as_list a;
      a_responses := rs;
      a_future :=
        if completed
        then Resolved (if a_as_list a then Many rs else Single m)
        else a_future a |},
   completed).

(** [str.encode('utf8')] on one code point. *)
Definition encode_utf8 (c : char) : list N :=
  if c <? 0x80 then [c]
  else if c <? 0x800 then [0xC0 + c / 64; 0x80 + c mod 64]
  else if c <? 0x10000 then
    [0xE0 + c / 4096; 0x80 + (c / 64) mod 64; 0x80 + c mod 64]
  else
    [0xF0 + c / 262144; 0x80 + (c / 4096) mod 64;
     0x80 + (c / 64) mod 64; 0x80 + c mod 64].

Definition to_bytes (ns : list N) : bytes :=
  map (fun n => default x00 (Byte.of_N n)) ns.

(** Modelled from the spec: the block an Action is sent as, one
    [Key: Value] line per parameter, the identifier, and the empty line. *)
Definition action_str (a : Action) : text :=
  concat (map (fun kv => kv.1 ++ txt ": " ++ kv.2 ++ EOL) (a_fields a))
  ++ txt "ActionID: " ++ default [] (a_id a) ++ EOL ++ EOL.

Definition action_encoded (a : Action) : bytes :=
  to_bytes (concat (map encode_utf8 (action_str a))).

(** [fnmatch.translate] as a list of tokens. *)
Inductive Glob :=
| Star                                   (* [*] *)
| Any_char                               (* [?] *)
| Class (negated : bool) (stuff : text)  (* a bracket expression *)
| Lit (c : char).

(** The scan of [fnmatch.translate] for the bracket that closes a class:
    the text up to it and the text after it. *)
Fixpoint until_bracket (s : text) : option (text * text) :=
  match s with
  | [] => None
  | c :: s' =>
      if c =? 93 then Some ([], s')
      else match until_bracket s' with
           | Some (stuff, rest) => Some (c :: stuff, rest)
           | None => None
           end
  end.

(** What follows an opening bracket: an optional [!], an optional [\]]
    that stands for itself, then everything up to the closing bracket. *)
Definition bracket (s : text) : option (bool * text * text) :=
  let '(negated, s1) :=
    match s with
    | 33 :: s1 => (true, s1)
    | _ => (false, s)
    end in
  match s1 with
  | 93 :: s2 =>
      match until_bracket s2 with
      | Some (stuff, rest) => Some (negated, 93 :: stuff, rest)
      | None => None
      end
  | _ =>
      match until_bracket s1 with
      | Some (stuff, rest) => Some (negated, stuff, rest)
      | None => None
      end
  end.

Fixpoint translate_fuel (fuel : nat) (pat : text) : list Glob :=
  match fuel, pat with
  | _, [] => []
  | O, _ => []
  | S fuel, c :: pat' =>
      if c =? 42 then Star :: translate_fuel fuel pat'
      else if c =? 63 then Any_char :: translate_fuel fuel pat'
      else if c =? 91 then
        match bracket pat' with
        | Some (negated, stuff, rest) =>
            Class negated stuff :: translate_fuel fuel rest
        | None => Lit c :: translate_fuel fuel pat'
        end
      else Lit c :: translate_fuel fuel pat'
  end.

(** [re.compile(fnmatch.translate(pat))]; each step consumes a character,
    so the length of the pattern is fuel enough. *)
Definition translate (pat : text) : list Glob :=
  translate_fuel (length pat) pat.

(** Membership in the set a bracket expression denotes: single characters
    and ranges [a-z]. *)
Fixpoint in_class (stuff : text) (c : char) : bool :=
  match stuff with
  | [] => false
  | lo :: 45 :: hi :: stuff' => ((lo <=? c) && (c <=? hi)) || in_class stuff' c
  | x :: stuff' => (x =? c) || in_class stuff' c
  end.

(** [regexp.match(s) is not None]: the translated pattern is anchored at
    both ends, and [*] and [?] match any character. *)
Fixpoint glob_match (g : list Glob) (s : text) : bool :=
  match g with
  | [] => match s with [] => true | _ => false end
  | Star :: g' =>
      (fix star (s : text) : bool :=
         glob_match g' s
         || match s with [] => false | _ :: s' => star s' end) s
  | Any_char :: g' =>
      match s with [] => false | _ :: s' => glob_match g' s' end
  | Class negated stuff :: g' =>
      match s with
      | [] => false
      | c :: s' => xorb negated (in_class stuff c) && glob_match g' s'
      end
  | Lit x :: g' =>
      match s with
      | [] => false
      | c :: s' => (x =? c) && glob_match g' s'
      end
  end.

End Reference.

(** The reference instance. *)
Definition reference : Collaborators :=
  {| MessageData := Reference.Fields;
     from_line := Reference.from_line;
     msg_id := Reference.msg_id;
     msg_contains_Event := Reference.msg_contains_Event;
     msg_event := Reference.msg_event;
     msg_success := Reference.msg_success;
     Action := Reference.Action;
     Action_new := Reference.Action_new;
     action_update := Reference.action_update;
     action_id := Reference.a_id;
     action_future := Reference.a_future;
     action_encoded := Reference.action_encoded;
     add_message := Reference.add_message;
     EOL := Reference.EOL;
     Regexp := list Reference.Glob;
     re_compile_translate := Reference.translate;
     re_match := Reference.glob_match |}.

(** ** Sample objects

    The inputs the model is run on below; [reference] is the instance. *)
Module Sample.
#[local] Existing Instance reference.

Definition config0 : Config :=
  {| host := txt "127.0.0.1"; port := 5038; ssl := false;
     cfg_encoding := Utf8;
     username := Some (txt "xx"); secret := Some (txt "xx") |}.

Definition transport0 : Transport := {| tr_close_raises := false |}.

(** Two callbacks that return normally. *)
Definition f : Callback := {| cb_name := 1%nat; cb_raises := fun _ => false |}.
Definition g : Callback := {| cb_name := 2%nat; cb_raises := fun _ => false |}.

Definition manager0 : Manager := Manager_init 0%nat config0.

(** [Message.from_line(block)]. *)
Definition message (block : text) : Message Reference.Fields :=
  {| msg_data := default [] (Reference.from_line block);
     msg_manager := None |}.

Definition PeerStatus := message (txt "Event: PeerStatus").
Definition NoPeerStatus := message (txt "Event: NoPeerStatus").

(** The answer to the Ping sent under the identifier 1. *)
Definition Pong :=
  message (txt "Response: Pong" ++ Reference.EOL ++ txt "ActionID: 1").

(** The Manager of the repository's test of events, with [f] registered
    under [Peer*]; and the same with [g] registered under [Peer*] too. *)
Definition manager1 : Manager :=
  (register_event (txt "Peer*") (Some f) manager0 []).1.2.
Definition manager2 : Manager :=
  (register_event (txt "Peer*") (Some g) manager1 []).1.2.

Definition crlf : bytes := [x0d; x0a].

(** The protocol of a Manager configured for UTF-8, just connected. *)
Definition connection0 : Connection :=
  set_encoding (Some Utf8) (Connection_connection_made transport0).

(** The same with a Ping sent and not yet answered. *)
Definition ping_action : Reference.Action :=
  Reference.Action_new false [(txt "Action", txt "Ping")] false (txt "1").

Definition connection1 : Connection :=
  set_responses {[ Some (txt "1") := ping_action ]} connection0.

(** An event block whose caller name holds a two-byte character (e with
    an acute accent, C3 A9), whole and cut between the two bytes. *)
Definition stream : bytes :=
  list_byte_of_string "Event: Newchannel" ++ crlf
  ++ list_byte_of_string "CallerIDName: Zo" ++ [xc3; xa9]
  ++ list_byte_of_string " B" ++ crlf ++ crlf.

Definition chunks : list bytes :=
  [ list_byte_of_string "Event: Newchannel" ++ crlf
    ++ list_byte_of_string "CallerIDName: Zo" ++ [xc3];
    [xa9] ++ list_byte_of_string " B" ++ crlf ++ crlf ].

End Sample.

(** More sample objects: a callback that raises, a configuration without
    [secret], an ASCII stream cut inside a field and inside the delimiter. *)
Module Sample_more.
#[local] Existing Instance reference.
Import Sample.

Definition h : Callback := {| cb_name := 3%nat; cb_raises := fun _ => true |}.

Definition manager3 : Manager :=
  (register_event (txt "Peer*") (Some h) manager0 []).1.2.

Definition config1 : Config :=
  {| host := txt "127.0.0.1"; port := 5038; ssl := false;
     cfg_encoding := Utf8; username := Some (txt "xx"); secret := None |}.

Definition manager4 : Manager := Manager_init 1%nat config1.

(** A Connection as [Connection.connection_made] leaves it: no encoding
    assigned, so the ASCII fallback applies. *)
Definition plain_connection : Connection :=
  Connection_connection_made transport0.

Definition ascii_chunks : list bytes :=
  [ list_byte_of_string "Event: Pe";
    list_byte_of_string "erStatus" ++ crlf ++ [x0d];
    [x0a] ++ list_byte_of_string "Event: Ne" ].

Definition registrations : list (text * Callback) :=
  [(txt "Peer*", f); (txt "Queue*", g)].

End Sample_more.

(** * Properties *)

(** ** Splitting *)

Lemma startswith_spec p s : startswith p s = true <-> exists r, s = p ++ r.
Proof.
  revert s; induction p as [|a p IH]; intros s; simpl.
  - split; eauto.
  - destruct s as [|b s]; simpl.
    + split; [discriminate | intros [r Hr]; discriminate].
    + rewrite andb_true_iff, N.eqb_eq, IH. split.
      * intros [-> [r ->]]. eauto.
      * intros [r Hr]. injection Hr as -> ->. eauto.
Qed.

Lemma startswith_app p s r : startswith p s = true -> startswith p (s ++ r) = true.
Proof.
  rewrite !startswith_spec. intros [x ->]. exists (x ++ r). by rewrite app_assoc.
Qed.

(** A prefix test that fails on a text at least as long as the prefix
    keeps failing when the text is extended. *)
Lemma startswith_app_false p s r :
  (length p <= length s)%nat ->
  startswith p s = false -> startswith p (s ++ r) = false.
Proof.
  revert s; induction p as [|a p IH]; intros [|b s]; simpl; try done; try lia.
  intros Hl. destruct (a =? b); simpl; [|done]. apply IH. lia.
Qed.

Lemma partition_spec sep s before after :
  partition sep s = Some (before, after) -> s = before ++ sep ++ after.
Proof.
  revert before after; induction s as [|c s IH]; intros before after; simpl.
  - destruct (startswith sep []) eqn:E; [|discriminate].
    intros [= <- <-]. apply startswith_spec in E as [r Hr].
    symmetry in Hr. apply app_eq_nil in Hr as [-> ->]. reflexivity.
  - destruct (startswith sep (c :: s)) eqn:E.
    + intros [= <- <-]. apply startswith_spec in E as [r Hr].
      rewrite Hr, drop_app_length. reflexivity.
    + destruct (partition sep s) as [[b a]|] eqn:P; [|discriminate].
      intros [= <- <-]. simpl. f_equal. apply IH. reflexivity.
Qed.

(** The leftmost occurrence of the separator in a text is still the
    leftmost one when more text arrives. *)
Lemma partition_app sep s r before after :
  partition sep s = Some (before, after) ->
  partition sep (s ++ r) = Some (before, after ++ r).
Proof.
  revert before after; induction s as [|c s IH]; intros before after.
  - simpl. destruct (startswith sep []) eqn:E; [|discriminate].
    intros [= <- <-]. apply startswith_spec in E as [x Hx].
    symmetry in Hx. apply app_eq_nil in Hx as [-> ->].
    destruct r; reflexivity.
  - cbn [partition app]. destruct (startswith sep (c :: s)) eqn:E.
    + intros [= <- <-].
      change (c :: s ++ r) with ((c :: s) ++ r).
      rewrite (startswith_app _ _ r E).
      apply startswith_spec in E as [x Hx]. rewrite Hx.
      rewrite <- app_assoc, !drop_app_length. reflexivity.
    + destruct (partition sep s) as [[b a]|] eqn:P; [|discriminate].
      intros [= <- <-].
      change (c :: s ++ r) with ((c :: s) ++ r).
      rewrite startswith_app_false; [| |done].
      * rewrite (IH b a eq_refl). reflexivity.
      * apply partition_spec in P. subst s. simpl. rewrite !length_app. lia.
Qed.

Lemma split_loop_step c cs s :
  split_loop c cs s =
  match partition (c :: cs) s with
  | Some (before, after) => before :: split_loop c cs after
  | None => [s]
  end.
Proof.
  rewrite split_loop_equation_1. unfold split_loop_unfold_clause_1.
  destruct (inspect (partition (c :: cs) s)) as [[[b a]|] E];
    rewrite E; reflexivity.
Qed.

Lemma split_loop_nonempty c cs s : split_loop c cs s <> [].
Proof.
  rewrite split_loop_step. destruct (partition _ _) as [[b a]|]; discriminate.
Qed.

(** Splitting a text that arrives in two parts: the complete fragments of
    the first part are final, and the last one is carried over in front of
    the second part. *)
Lemma split_loop_app c cs s r :
  split_loop c cs (s ++ r) =
  removelast (split_loop c cs s)
  ++ split_loop c cs (List.last (split_loop c cs s) [] ++ r).
Proof.
  induction s as [s IH] using (induction_ltof1 _ (@length char)).
  unfold ltof in IH.
  rewrite (split_loop_step c cs s).
  destruct (partition (c :: cs) s) as [[b a]|] eqn:P.
  - rewrite (split_loop_step c cs (s ++ r)), (partition_app _ _ r _ _ P).
    pose proof (split_loop_nonempty c cs a) as Hne.
    rewrite IH.
    + destruct (split_loop c cs a) as [|x l] eqn:E; [done|]. reflexivity.
    + apply partition_spec in P. subst s. rewrite !length_app. simpl. lia.
  - reflexivity.
Qed.

Lemma split_app sep s r lines :
  split sep s = Some lines ->
  split sep (s ++ r) =
  match split sep (List.last lines [] ++ r) with
  | Some lines' => Some (removelast lines ++ lines')
  | None => None
  end.
Proof.
  destruct sep as [|c cs]; simpl; [discriminate|].
  intros [= <-]. by rewrite split_loop_app.
Qed.

(** ** Decoding *)

Lemma decode_ascii_app x y :
  decode_ascii (x ++ y) = decode_ascii x ++ decode_ascii y.
Proof.
  induction x as [|b x IH]; simpl; [done|].
  destruct (b <? 128); simpl; by rewrite IH.
Qed.

(** A chunk of ASCII bytes decodes under UTF-8 independently of what
    follows it. *)
Lemma decode_utf8_app x y :
  Forall (fun b => b < 0x80) x ->
  decode_utf8 (x ++ y) = decode_utf8 x ++ decode_utf8 y.
Proof.
  induction 1 as [|b x Hb Hx IH]; [done|].
  apply N.ltb_lt in Hb.
  change ((b :: x) ++ y) with (b :: (x ++ y)).
  cbn [decode_utf8]. rewrite Hb, IH. reflexivity.
Qed.

Lemma decode_Utf8_app x y :
  Forall (fun b => Byte.to_N b < 0x80) x ->
  decode Utf8 (x ++ y) = decode Utf8 x ++ decode Utf8 y.
Proof.
  intros Hx. unfold decode. rewrite map_app. apply decode_utf8_app.
  by apply Forall_fmap.
Qed.

Lemma decode_Ascii_app x y :
  decode Ascii (x ++ y) = decode Ascii x ++ decode Ascii y.
Proof. unfold decode. by rewrite map_app, decode_ascii_app. Qed.

(** ** The monad and the frame of the routing path *)

Section Framing.
Context `{Collaborators}.

Lemma for_each_app {S A} (l1 l2 : list A) (body : A -> M S unit) s t :
  for_each (l1 ++ l2) body s t =
  bind (for_each l1 body) (fun _ => for_each l2 body) s t.
Proof.
  revert s t; induction l1 as [|x l1 IH]; intros s t; simpl; [done|].
  unfold bind in *. destruct (body x s t) as [[[a|e] s'] t']; [|done].
  apply IH.
Qed.

Lemma framed_ret {A} (a : A) : framed (ret a).
Proof. split; done. Qed.

Lemma framed_raise {A} e : framed (@raise _ Connection A e).
Proof. split; done. Qed.

Lemma framed_emit e : framed (@emit _ Connection e).
Proof. split; done. Qed.

Lemma framed_set_responses (g : Connection -> gmap Key Action) :
  (forall q c, g (set_queue q c) = g c) ->
  framed (modify (fun c => set_responses (g c) c)).
Proof.
  intros Hg. split; [|done]. intros q c t. unfold modify; simpl.
  by rewrite Hg.
Qed.

Lemma framed_bind {A B} (f : M Connection A) (k : A -> M Connection B) :
  framed f -> (forall a, framed (k a)) -> framed (bind f k).
Proof.
  intros [Hf1 Hf2] Hk. split.
  - intros q c t. unfold bind. rewrite Hf1.
    destruct (f c t) as [[[a|e] c'] t']; simpl; [|done]. apply Hk.
  - intros c t. unfold bind. specialize (Hf2 c t).
    destruct (f c t) as [[[a|e] c'] t']; simpl in *; [|done].
    destruct (Hk a) as [_ ->]. done.
Qed.

Lemma framed_for_each {A} (l : list A) (body : A -> M Connection unit) :
  (forall x, framed (body x)) -> framed (for_each l body).
Proof.
  intros Hb. induction l as [|x l IH]; simpl.
  - apply framed_ret.
  - apply framed_bind; auto.
Qed.

Lemma framed_on_event {A} (f : M (Message MessageData) A) event :
  framed (on_event f event).
Proof.
  split; intros; unfold on_event; destruct (f event t) as [[r e'] t']; done.
Qed.

Lemma framed_pop key : framed (pop key).
Proof.
  split.
  - intros q c t. unfold pop, bind, get, modify, raise; simpl.
    destruct (responses c !! key); done.
  - intros c t. unfold pop, bind, get, modify, raise; simpl.
    destruct (responses c !! key); done.
Qed.

(** What [route] does once the table has been looked up. *)
Lemma route_lookup factory message c t :
  route factory message c t =
  match responses c !! msg_id (msg_data message) with
  | Some response =>
      let '(response, completed) := add_message response message in
      bind (modify (fun c =>
              set_responses
                (<[msg_id (msg_data message) := response]> (responses c)) c))
           (fun _ => if completed then pop (action_id response) else ret tt)
  | None =>
      if msg_contains_Event (msg_data message) then
        match factory with
        | Some m => bind (on_event (dispatch m) message) (fun _ => ret tt)
        | None => raise AttributeError
        end
      else ret tt
  end c t.
Proof. reflexivity. Qed.

Lemma framed_route factory message : framed (route factory message).
Proof.
  assert (Hcases : forall o : option Action, framed
    match o with
    | Some response =>
        let '(response, completed) := add_message response message in
        bind (modify (fun c =>
                set_responses
                  (<[msg_id (msg_data message) := response]> (responses c)) c))
             (fun _ => if completed then pop (action_id response) else ret tt)
    | None =>
        if msg_contains_Event (msg_data message) then
          match factory with
          | Some m => bind (on_event (dispatch m) message) (fun _ => ret tt)
          | None => raise AttributeError
          end
        else ret tt
    end).
  { intros [response|].
    - destruct (add_message response message) as [response' completed].
      apply framed_bind; [by apply framed_set_responses|].
      intros _. destruct completed; [apply framed_pop | apply framed_ret].
    - destruct (msg_contains_Event _); [|apply framed_ret].
      destruct factory; [|apply framed_raise].
      apply framed_bind; [apply framed_on_event | intros; apply framed_ret]. }
  split.
  - intros q c t. rewrite !route_lookup.
    apply (Hcases (responses c !! msg_id (msg_data message))).
  - intros c t. rewrite route_lookup.
    apply (Hcases (responses c !! msg_id (msg_data message))).
Qed.

Lemma framed_handle_line factory line : framed (handle_line factory line).
Proof.
  unfold handle_line. apply framed_bind; [apply framed_emit|].
  intros _. destruct (from_line _); simpl;
    [apply framed_route | apply framed_ret].
Qed.

End Framing.

(** ** Reassembly across chunk boundaries *)

Section Reassembly.
Context `{Collaborators}.

Lemma last_app_ne {A} (l l' : list A) d :
  l' <> [] -> List.last (l ++ l') d = List.last l' d.
Proof.
  intros Hne. rewrite (app_removelast_last d Hne) at 1.
  by rewrite app_assoc, last_last.
Qed.

(** [data_received] once the queue holds at most the one carried-over
    fragment: split the carry-over followed by the decoded chunk, keep the
    last fragment, handle the others. *)
Lemma data_received_lines factory d c t sc scs :
  EOL ++ EOL = sc :: scs -> (length (queue c) <= 1)%nat ->
  data_received factory d c t =
  let lines :=
    split_loop sc scs
      (hd [] (queue c) ++ decode (default Ascii (encoding c)) d) in
  for_each (removelast lines) (handle_line factory)
           (set_queue [List.last lines []] c) t.
Proof.
  intros HE Hq. unfold data_received, split. rewrite HE.
  destruct c as [tr cl q rs enc]. simpl in Hq.
  destruct q as [|item [|]]; simpl in Hq; try lia; reflexivity.
Qed.

Lemma delimiter_nonempty :
  EOL <> [] -> exists sc scs, EOL ++ EOL = sc :: scs.
Proof. destruct EOL as [|sc scs]; [done|]. intros _. simpl. eauto. Qed.

Lemma framed_lines factory lines : framed (for_each lines (handle_line factory)).
Proof. apply framed_for_each. intros. apply framed_handle_line. Qed.

(** After [data_received] the queue holds exactly one fragment and the
    encoding is what it was, whether the call returned or raised. *)
Lemma data_received_inv factory d c t :
  EOL <> [] -> (length (queue c) <= 1)%nat ->
  length (queue (data_received factory d c t).1.2) = 1%nat
  /\ encoding (data_received factory d c t).1.2 = encoding c.
Proof.
  intros HE Hq. destruct (delimiter_nonempty HE) as (sc & scs & HEE).
  rewrite (data_received_lines factory d c t sc scs HEE Hq).
  cbv zeta. destruct (framed_lines factory
    (removelast (split_loop sc scs
       (hd [] (queue c) ++ decode (default Ascii (encoding c)) d))))
    as [H1 H2].
  rewrite H1. specialize (H2 c t).
  destruct (for_each _ _ c t) as [[r c'] t']. simpl in *. done.
Qed.

(** One call on [a ++ b] against a call on [a] followed by a call on [b],
    when the two chunks decode to what the whole decodes to: the same
    messages are handled in the same order from the same table; the calls
    differ at most in the queue left behind by a call that raised. *)
Lemma data_received_app factory a b c t :
  EOL <> [] -> (length (queue c) <= 1)%nat ->
  decode (default Ascii (encoding c)) (a ++ b)
  = decode (default Ascii (encoding c)) a
    ++ decode (default Ascii (encoding c)) b ->
  match data_received factory a c t with
  | (Returns _, c1, t1) =>
      data_received factory (a ++ b) c t = data_received factory b c1 t1
  | (Raises e, c1, t1) =>
      exists q, data_received factory (a ++ b) c t = (Raises e, set_queue q c1, t1)
  end.
Proof.
  intros HE Hq Hdec. destruct (delimiter_nonempty HE) as (sc & scs & HEE).
  rewrite !(data_received_lines factory _ c t _ _ HEE Hq). cbv zeta.
  rewrite Hdec, app_assoc.
  rewrite (split_loop_app sc scs
             (hd [] (queue c) ++ decode (default Ascii (encoding c)) a)).
  set (La := split_loop sc scs
                (hd [] (queue c) ++ decode (default Ascii (encoding c)) a)).
  set (Lb := split_loop sc scs
                (List.last La [] ++ decode (default Ascii (encoding c)) b)).
  assert (HLb : Lb <> []) by apply split_loop_nonempty.
  rewrite (removelast_app _ HLb), (last_app_ne _ _ _ HLb), for_each_app.
  unfold bind.
  destruct (framed_lines factory (removelast La)) as [H1 H2].
  rewrite !H1. specialize (H2 c t).
  destruct (for_each (removelast La) _ c t) as [[[[]|e] c0] t0];
    simpl in H2 |- *.
  - rewrite (data_received_lines factory b _ t0 _ _ HEE); [|simpl; lia].
    cbv zeta. simpl. rewrite H2. reflexivity.
  - by exists [List.last Lb []].
Qed.

(** Chunk invariance, whenever decoding the chunks one by one gives what
    decoding the stream gives: one call per chunk does exactly what one
    call on the whole stream does. Every complete block is handled once, in
    order, also when the delimiter itself is cut by a chunk boundary. *)
Theorem feed_invariant factory chunk chunks c t :
  EOL <> [] -> (length (queue c) <= 1)%nat ->
  decodes_chunkwise (default Ascii (encoding c)) (chunk :: chunks) ->
  match feed factory (chunk :: chunks) c t with
  | (Returns _, c1, t1) =>
      data_received factory (concat (chunk :: chunks)) c t = (Returns tt, c1, t1)
  | (Raises e, c1, t1) =>
      exists q, data_received factory (concat (chunk :: chunks)) c t
                = (Raises e, set_queue q c1, t1)
  end.
Proof.
  intros HE. revert chunk c t.
  induction chunks as [|b rest IH]; intros chunk c t Hq Hdec.
  - simpl. rewrite app_nil_r. unfold feed, for_each, bind, ret.
    destruct (data_received factory chunk c t) as [[[[]|e] c1] t1]; [done|].
    exists (queue c1). by destruct c1.
  - change (concat (chunk :: b :: rest)) with (chunk ++ concat (b :: rest)).
    destruct Hdec as [Hhere Hrest].
    pose proof (data_received_app factory chunk (concat (b :: rest)) c t
                  HE Hq Hhere) as Happ.
    pose proof (data_received_inv factory chunk c t HE Hq) as [Hq1 Henc1].
    change (feed factory (chunk :: b :: rest) c t)
      with (bind (data_received factory chunk)
                 (fun _ => feed factory (b :: rest)) c t).
    unfold bind.
    destruct (data_received factory chunk c t) as [[[[]|e] c1] t1];
      simpl in Hq1, Henc1; [|done].
    rewrite Happ. apply IH; [lia | by rewrite Henc1].
Qed.

Lemma decodes_chunkwise_Ascii chunks : decodes_chunkwise Ascii chunks.
Proof.
  induction chunks as [|chunk rest IH]; simpl; [done|].
  split; [apply decode_Ascii_app | done].
Qed.

Lemma decodes_chunkwise_Utf8 chunks :
  Forall (Forall (fun b => Byte.to_N b < 0x80)) chunks ->
  decodes_chunkwise Utf8 chunks.
Proof.
  induction 1 as [|chunk rest Hchunk Hrest IH]; simpl; [done|].
  split; [by apply decode_Utf8_app | done].
Qed.

(** Under the ASCII codec, the fallback of [data_received], the
    invariance holds for every byte stream and every way of cutting it. *)
Corollary feed_ascii_invariant factory chunk chunks c t :
  EOL <> [] -> (length (queue c) <= 1)%nat ->
  default Ascii (encoding c) = Ascii ->
  match feed factory (chunk :: chunks) c t with
  | (Returns _, c1, t1) =>
      data_received factory (concat (chunk :: chunks)) c t = (Returns tt, c1, t1)
  | (Raises e, c1, t1) =>
      exists q, data_received factory (concat (chunk :: chunks)) c t
                = (Raises e, set_queue q c1, t1)
  end.
Proof.
  intros HE Hq Henc. apply feed_invariant; [done..|].
  rewrite Henc. apply decodes_chunkwise_Ascii.
Qed.

(** Under UTF-8 it holds for the streams made of ASCII bytes. *)
Corollary feed_utf8_invariant factory chunk chunks c t :
  EOL <> [] -> (length (queue c) <= 1)%nat ->
  encoding c = Some Utf8 ->
  Forall (Forall (fun b => Byte.to_N b < 0x80)) (chunk :: chunks) ->
  match feed factory (chunk :: chunks) c t with
  | (Returns _, c1, t1) =>
      data_received factory (concat (chunk :: chunks)) c t = (Returns tt, c1, t1)
  | (Raises e, c1, t1) =>
      exists q, data_received factory (concat (chunk :: chunks)) c t
                = (Raises e, set_queue q c1, t1)
  end.
Proof.
  intros HE Hq Henc Hascii. apply feed_invariant; [done..|].
  rewrite Henc. by apply decodes_chunkwise_Utf8.
Qed.

End Reassembly.

(** ** The event registry *)

Section Registry.
Context `{Collaborators}.

Lemma for_each_call self event (cbs : list Callback) t :
  (forall cb, cb ∈ cbs -> cb_raises cb event = false) ->
  for_each cbs (fun cb => call cb self) event t
  = (Returns tt, event, t ++ calls self event cbs).
Proof.
  revert t; induction cbs as [|cb cbs IH]; intros t Hcbs; simpl.
  - by rewrite app_nil_r.
  - unfold bind at 1. unfold call at 1, bind, get, emit, ret, raise.
    rewrite (Hcbs cb) by set_solver.
    rewrite IH by set_solver. by rewrite <- app_assoc.
Qed.

Lemma for_each_const {S} (l : list Callback) (body : M S unit) s t tr :
  (forall t, body s t = (Returns tt, s, t ++ tr)) ->
  for_each l (fun _ => body) s t
  = (Returns tt, s, t ++ flat_map (fun _ => tr) l).
Proof.
  intros Hb. revert t; induction l as [|x l IH]; intros t; simpl.
  - by rewrite app_nil_r.
  - unfold bind. rewrite Hb, IH. by rewrite <- app_assoc.
Qed.

Lemma dispatch_loop_returns m ps matches event t :
  (forall pattern regexp cb,
     (pattern, regexp) ∈ ps ->
     re_match regexp (msg_event (msg_data event)) = true ->
     cb ∈ callbacks_of m pattern -> cb_raises cb event = false) ->
  dispatch_loop m ps matches event t
  = (Returns
       (matches ++
        map fst (List.filter
                   (fun pr => re_match pr.2 (msg_event (msg_data event))) ps)),
     event, t ++ dispatch_calls m event ps).
Proof.
  revert matches t; induction ps as [|[pattern regexp] ps IH];
    intros matches t Hps; simpl.
  - by rewrite !app_nil_r.
  - unfold bind at 1, get.
    destruct (re_match regexp (msg_event (msg_data event))) eqn:Hm.
    + unfold bind at 1.
      rewrite (for_each_const _ _ _ _
                 (calls (self_ref m) event (callbacks_of m pattern))).
      * rewrite IH by (intros; eapply Hps; [right|..]; eauto).
        simpl. by rewrite <- !app_assoc.
      * intros t'. apply for_each_call. intros cb Hcb.
        eapply Hps; [left|..]; eauto.
    + apply IH. intros; eapply Hps; [right|..]; eauto.
Qed.

(** What [dispatch] does when no callback raises: it returns the
    matching pattern strings, leaves the event with its [manager]
    attribute set, and has made the calls of [dispatch_calls]. *)
Lemma dispatch_returns m event t :
  no_raise m event ->
  dispatch m event t
  = (Returns (matching m event), set_manager (self_ref m) event,
     t ++ dispatch_calls m (set_manager (self_ref m) event) (patterns m)).
Proof.
  intros Hno. unfold dispatch, bind, modify.
  rewrite dispatch_loop_returns; [done|].
  intros pattern regexp cb Hin Hm Hcb. by eapply Hno.
Qed.


End Registry.

(** * The claims *)

(** ** Framing: C1 *)

Section Claims_framing.
#[local] Existing Instance reference.
Import Sample.

(** C1. Chunk invariance of [Connection.data_received] fails under the
    Manager's default codec: each chunk is decoded on its own, before it is
    joined to the carry-over, so a multi-byte character cut by a chunk
    boundary is dropped by the [ignore] handler on both sides. The stream
    below decodes, in one call, to a message whose caller name is
    [Zo], U+00E9, [ B]; fed as two chunks that cut the character, the same
    bytes decode to a message whose caller name is [Zo B]. (Under the ASCII
    codec the invariance holds for every stream and every cut, and under
    UTF-8 whenever no boundary cuts a character: [feed_invariant].) *)
Theorem split_character_changes_message :
  concat chunks = stream
  /\ data_received (Some manager0) stream connection0 []
     = (Returns tt, set_queue [[]] connection0,
        [Log_message (Some
           {| msg_data := [(txt "event", txt "Newchannel");
                           (txt "calleridname", txt "Zo" ++ [233] ++ txt " B")];
              msg_manager := None |})])
  /\ feed (Some manager0) chunks connection0 []
     = (Returns tt, set_queue [[]] connection0,
        [Log_message (Some
           {| msg_data := [(txt "event", txt "Newchannel");
                           (txt "calleridname", txt "Zo B")];
              msg_manager := None |})]).
Proof. repeat split; vm_compute; reflexivity. Qed.

End Claims_framing.

(** ** Routing: C2 *)

Section Claims_routing.
Context `{Collaborators}.

(** [send] files the Action under its own identifier, which is what
    [route] relies on when it pops by [response.id]. *)
Lemma send_files_under_id uid data as_list c t :
  exists a, (send uid data as_list c t).1.1 = Returns (action_id a)
            /\ responses (send uid data as_list c t).1.2 !! action_id a = Some a.
Proof.
  unfold send, bind, emit, modify, ret; simpl.
  eexists; split; [reflexivity|]. apply lookup_insert_eq.
Qed.

Lemma connection_made_filed tr : filed_by_id (Connection_connection_made tr).
Proof. intros key a. simpl. by rewrite lookup_empty. Qed.

Lemma send_filed uid data as_list c t :
  filed_by_id c -> filed_by_id (send uid data as_list c t).1.2.
Proof.
  intros Hc key a. unfold send, bind, emit, modify, ret; simpl.
  rewrite lookup_insert. case_decide as Hk.
  - intros [= <-]. done.
  - apply Hc.
Qed.

(** [route] keeps the table filed by identifier when accumulation
    leaves the identifier of an Action alone. *)
Lemma route_filed factory message c t :
  (forall a m, action_id (add_message a m).1 = action_id a) ->
  filed_by_id c -> filed_by_id (route factory message c t).1.2.
Proof.
  intros Hadd Hc. rewrite route_lookup.
  destruct (responses c !! msg_id (msg_data message)) as [response|] eqn:Hl.
  - pose proof (Hadd response message) as Hid.
    destruct (add_message response message) as [response' completed].
    simpl in Hid. rewrite (Hc _ _ Hl) in Hid.
    destruct completed.
    + cbv [bind modify pop get raise ret]. cbn [responses set_responses].
      rewrite Hid, lookup_insert_eq. intros key a. simpl.
      rewrite delete_insert_eq, lookup_delete. case_decide; [done|apply Hc].
    + intros key a. simpl. rewrite lookup_insert. case_decide as Hk.
      * intros [= <-]. by rewrite <- Hk.
      * apply Hc.
  - destruct (msg_contains_Event _); [|done].
    destruct factory as [m|]; [|done].
    unfold bind, on_event, ret.
    destruct (dispatch m message t) as [[[matches|e] ev] t']; done.
Qed.


End Claims_routing.

Section Claims_routing_sample.
#[local] Existing Instance reference.
Import Sample.


End Claims_routing_sample.

(** ** The event registry: C8, C6, C3, C10 *)

Section Claims_registry.
Context `{Collaborators}.

Lemma _register_event_registers pattern f m t :
  _register_event pattern f m t = (Returns f, registration pattern f m, t).
Proof. reflexivity. Qed.

Lemma patterns_registration pattern f m :
  patterns (registration pattern f m)
  = patterns m ++ [(pattern, re_compile_translate pattern)].
Proof. reflexivity. Qed.

Lemma callbacks_of_registration pattern f m :
  callbacks_of (registration pattern f m) pattern
  = callbacks_of m pattern ++ [f].
Proof.
  unfold callbacks_of at 1, registration; simpl. by rewrite lookup_insert_eq.
Qed.

Lemma callbacks_of_registration_ne pattern pattern' f m :
  pattern <> pattern' ->
  callbacks_of (registration pattern f m) pattern' = callbacks_of m pattern'.
Proof.
  intros Hne. unfold callbacks_of, registration; simpl.
  by rewrite lookup_insert_ne.
Qed.

(** C8. For every pattern string [p]: [register_event(p)] without a
    callback changes nothing and returns a function which, applied later
    (to any state [m'] the Manager is then in) to a callback [f], appends
    the registry entry of [p] with the matcher compiled from [p], records
    [f] after the callbacks already under [p], and returns [f] itself;
    [register_event(p, f)] registers in the same way and returns [f]. *)
Theorem register_event_decorator (p : text) (f : Callback) (m m' : Manager)
    (t t' : Trace) :
  register_event p None m t = (Returns (The_registrar p), m, t)
  /\ apply_registered (The_registrar p) f m' t'
     = (Returns f, registration p f m', t')
  /\ register_event p (Some f) m t
     = (Returns (The_callback f), registration p f m, t)
  /\ patterns (registration p f m)
     = patterns m ++ [(p, re_compile_translate p)]
  /\ callbacks_of (registration p f m) p = callbacks_of m p ++ [f].
Proof.
  repeat split. apply callbacks_of_registration.
Qed.

(** C6. When no callback it calls raises, [Manager.dispatch] returns the
    pattern strings of the registry entries whose matcher accepts the
    event's name, in registration order and once per entry: the empty list
    when none matches, and a pattern registered twice twice. *)
Theorem dispatch_returns_matching (m : Manager) (event : Message MessageData)
    (t : Trace) :
  no_raise m event ->
  (dispatch m event t).1.1 = Returns (matching m event).
Proof. intros Hno. by rewrite dispatch_returns. Qed.

(** C3. [Manager.dispatch] calls a callback more than once per
    registration as soon as a pattern string has two callbacks: with [f]
    and then [g] registered under the same pattern on a new Manager, one
    matching event makes eight calls, [f g f g] for each of the two
    entries, where one call of [f] and one of [g] are due. The two nested
    loops over [self.callbacks[pattern]] run the whole list once for each
    of its elements, and the list is shared by the entries of the
    pattern. *)
Theorem dispatch_repeats_callbacks (ref : ManagerRef) (cfg : Config)
    (pattern : text) (f g : Callback) (event : Message MessageData)
    (t : Trace) :
  let m0 := Manager_init ref cfg in
  let m1 := (register_event pattern (Some f) m0 []).1.2 in
  let m2 := (register_event pattern (Some g) m1 []).1.2 in
  let e := set_manager ref event in
  re_match (re_compile_translate pattern) (msg_event (msg_data event)) = true ->
  cb_raises f e = false ->
  cb_raises g e = false ->
  dispatch m2 event t
  = (Returns [pattern; pattern], e,
     t ++ [Call f e ref; Call g e ref; Call f e ref; Call g e ref;
           Call f e ref; Call g e ref; Call f e ref; Call g e ref]).
Proof.
  intros m0 m1 m2 e Hmatch Hf Hg.
  assert (Hcbs : callbacks_of m2 pattern = [f; g]).
  { change m2 with (registration pattern g (registration pattern f m0)).
    rewrite !callbacks_of_registration. unfold callbacks_of, m0; simpl.
    by rewrite lookup_empty. }
  assert (Hps : patterns m2 = [(pattern, re_compile_translate pattern);
                               (pattern, re_compile_translate pattern)])
    by reflexivity.
  rewrite dispatch_returns.
  - unfold matching, dispatch_calls. rewrite Hps. simpl.
    rewrite Hmatch, Hcbs. reflexivity.
  - intros p re cb Hin _ Hcb. rewrite Hps in Hin.
    assert (p = pattern) as ->.
    { rewrite !elem_of_cons, elem_of_nil in Hin.
      destruct Hin as [[= -> _]|[[= -> _]|[]]]; done. }
    rewrite Hcbs in Hcb. change (self_ref m2) with ref.
    rewrite !elem_of_cons, elem_of_nil in Hcb.
    destruct Hcb as [->|[->|[]]]; done.
Qed.

(** The repetition needs a repeated pattern string: an entry whose
    pattern has a single callback calls it once. *)
Lemma dispatch_calls_single m event pattern regexp cb :
  callbacks_of m pattern = [cb] ->
  re_match regexp (msg_event (msg_data event)) = true ->
  dispatch_calls m event [(pattern, regexp)] = [Call cb event (self_ref m)].
Proof. intros Hcb Hm. unfold dispatch_calls; simpl. by rewrite Hm, Hcb. Qed.


End Claims_registry.

Section Claims_registry_sample.
#[local] Existing Instance reference.
Import Sample.

Lemma sample_callbacks_return (m : Manager) (event : Message MessageData) :
  (forall p, Forall (fun cb => cb = f \/ cb = g) (callbacks_of m p)) ->
  no_raise m event.
Proof.
  intros Hfg p re cb _ _ Hcb.
  destruct (proj1 (Forall_forall _ _) (Hfg p) cb Hcb) as [-> | ->]; reflexivity.
Qed.

Lemma manager2_callbacks p :
  Forall (fun cb => cb = f \/ cb = g) (callbacks_of manager2 p).
Proof.
  change manager2
    with (registration (txt "Peer*") g (registration (txt "Peer*") f manager0)).
  destruct (decide (txt "Peer*" = p)) as [<-|Hne].
  - rewrite !callbacks_of_registration.
    change (callbacks_of manager0 (txt "Peer*")) with (@nil Callback).
    simpl. repeat (constructor; [auto|]). constructor.
  - rewrite !callbacks_of_registration_ne by done.
    unfold callbacks_of, manager0; simpl. rewrite lookup_empty. constructor.
Qed.

Lemma manager1_callbacks p :
  Forall (fun cb => cb = f \/ cb = g) (callbacks_of manager1 p).
Proof.
  change manager1 with (registration (txt "Peer*") f manager0).
  destruct (decide (txt "Peer*" = p)) as [<-|Hne].
  - rewrite !callbacks_of_registration.
    change (callbacks_of manager0 (txt "Peer*")) with (@nil Callback).
    simpl. repeat (constructor; [auto|]). constructor.
  - rewrite !callbacks_of_registration_ne by done.
    unfold callbacks_of, manager0; simpl. rewrite lookup_empty. constructor.
Qed.

(** The examples of C6: [Peer*] registered once returns [["Peer*"]] for
    the event PeerStatus and [[]] for NoPeerStatus; registered twice it is
    returned twice. *)
Lemma dispatch_returns_matching_witness :
  (dispatch manager1 PeerStatus []).1.1 = Returns [txt "Peer*"]
  /\ (dispatch manager1 NoPeerStatus []).1.1 = Returns []
  /\ (dispatch manager2 PeerStatus []).1.1 = Returns [txt "Peer*"; txt "Peer*"].
Proof.
  split; [|split].
  - apply (dispatch_returns_matching manager1 PeerStatus []).
    apply sample_callbacks_return, manager1_callbacks.
  - apply (dispatch_returns_matching manager1 NoPeerStatus []).
    apply sample_callbacks_return, manager1_callbacks.
  - apply (dispatch_returns_matching manager2 PeerStatus []).
    apply sample_callbacks_return, manager2_callbacks.
Defined.

(** C3 at its failing input: [f] then [g] under [Peer*], one PeerStatus. *)
Lemma dispatch_repeats_callbacks_witness :
  let e := set_manager 0%nat PeerStatus in
  dispatch manager2 PeerStatus []
  = (Returns [txt "Peer*"; txt "Peer*"], e,
     [Call f e 0%nat; Call g e 0%nat; Call f e 0%nat; Call g e 0%nat;
      Call f e 0%nat; Call g e 0%nat; Call f e 0%nat; Call g e 0%nat]).
Proof.
  apply (dispatch_repeats_callbacks 0%nat config0 (txt "Peer*") f g
           PeerStatus []); reflexivity.
Defined.


End Claims_registry_sample.

(** ** The life cycle: C9, C4, C5, C7 *)

Section Claims_lifecycle.
Context `{Collaborators}.

Lemma Connection_close_closed c t :
  closed c = true -> Connection_close c t = (Returns tt, c, t).
Proof. intros Hc. unfold Connection_close, bind, get. by rewrite Hc. Qed.

Lemma Connection_close_closes c t : closed (Connection_close c t).1.2 = true.
Proof.
  destruct c as [[raises] is_closed q rs enc].
  destruct is_closed, raises; reflexivity.
Qed.

Lemma Manager_close_protocol m p t :
  protocol m = Some p ->
  Manager_close m t
  = (let '(r, p', t') := Connection_close p t in
     (r, set_protocol (Some p') m, t')).
Proof.
  intros Hp. unfold Manager_close, bind, get. rewrite Hp.
  unfold on_protocol. by rewrite Hp.
Qed.

(** C9. [Connection.close()] on a closed Connection does nothing and
    does not raise; after any call of [close()], also one in which
    [transport.close()] raised, the Connection is closed, so a second call
    is such a no-op. [Manager.close()] without a protocol does nothing and
    does not raise; with one, it is [close()] on that protocol, which is
    closed afterwards; with one that is closed already, it does nothing. *)
Theorem close_idempotent :
  (forall c t, closed c = true -> Connection_close c t = (Returns tt, c, t))
  /\ (forall c t,
        let '(_, c1, t1) := Connection_close c t in
        closed c1 = true /\ Connection_close c1 t1 = (Returns tt, c1, t1))
  /\ (forall m t, protocol m = None -> Manager_close m t = (Returns tt, m, t))
  /\ (forall m p t,
        protocol m = Some p ->
        let '(r, p', t') := Connection_close p t in
        Manager_close m t = (r, set_protocol (Some p') m, t')
        /\ closed p' = true)
  /\ (forall m p t,
        protocol m = Some p -> closed p = true ->
        Manager_close m t = (Returns tt, m, t)).
Proof.
  split; [exact Connection_close_closed|].
  split.
  { intros c t. pose proof (Connection_close_closes c t) as Hc.
    destruct (Connection_close c t) as [[r c1] t1]. simpl in Hc.
    split; [done|]. by apply Connection_close_closed. }
  split.
  { intros m t Hp. unfold Manager_close, bind, get. by rewrite Hp. }
  split.
  { intros m p t Hp. pose proof (Connection_close_closes p t) as Hc.
    rewrite (Manager_close_protocol m p t Hp).
    destruct (Connection_close p t) as [[r p'] t']. simpl in Hc. done. }
  intros m p t Hp Hc.
  rewrite (Manager_close_protocol m p t Hp).
  rewrite (Connection_close_closed p t Hc).
  destruct m; simpl in *; by subst.
Qed.

(** C4, as amended. [Connection.connection_lost] does not touch the
    pending table: every Action that was pending is still there, with its
    completion handle as it was, neither resolved nor failed. *)
Theorem connection_lost_keeps_pending (factory : option Manager)
    (c : Connection) (t : Trace) :
  responses (connection_lost factory c t).1.2 = responses c.
Proof.
  destruct c as [[raises] is_closed q rs enc].
  destruct is_closed, raises, factory; reflexivity.
Qed.

(** C5. On the loss of an open connection whose transport closes
    cleanly, [connection_lost] waits out the reconnect delay in
    [time.sleep(2)], inside the call, and only then asks the Manager to
    connect; whereas [Manager.connection_made], on a connection attempt
    that failed with [OSError], hands the same two-second delay to
    [loop.call_later] and returns. *)
Theorem connection_lost_sleeps (m : Manager) (c : Connection) (t : Trace)
    (uid : text) :
  closed c = false ->
  tr_close_raises (transport c) = false ->
  protocol m = None ->
  connection_lost (Some m) c t
  = (Returns tt, set_closed true c, t ++ [Transport_close; Sleep 2; Connect])
  /\ Manager_connection_made uid (Raises OSError) m t
     = (Returns tt, m, t ++ [Log_exception; Call_later 2 Timer_connect]).
Proof.
  intros Hc Htr Hp. split.
  - destruct c as [[raises] is_closed q rs enc]. simpl in Hc, Htr. subst.
    cbv [connection_lost Connection_close bind get emit modify raise ret].
    simpl. by rewrite <- !app_assoc.
  - unfold Manager_connection_made, Manager_close, bind, get, emit, ret.
    rewrite Hp. by rewrite <- !app_assoc.
Qed.

(** C7. With [username] and [secret] configured, [Manager.connection_made]
    on an established connection (any earlier protocol having closed
    without raising) clears the authenticated flag, writes the Login action
    with these credentials to the transport, files it in the pending table,
    keeps its future as [authenticated_future] and makes [login] its
    done-callback. [login], on a future resolved with a response, sets the
    authenticated flag to the response's success derivation, true or false,
    clears [authenticated_future] and returns the flag without raising. *)
Theorem login_on_connect :
  (forall uid tr m t m1 t1 user pass,
     username (config m) = Some user ->
     secret (config m) = Some pass ->
     Manager_close m t = (Returns tt, m1, t1) ->
     Manager_connection_made uid (Returns tr) m t
     = (Returns tt,
        {| self_ref := self_ref m1; config := config m1;
           callbacks := callbacks m1;
           protocol := Some
             {| transport := tr; closed := false; queue := [];
                responses := {[ action_id (Login uid user pass)
                                := Login uid user pass ]};
                encoding := Some (cfg_encoding (config m1)) |};
           patterns := patterns m1;
           authenticated := false;
           authenticated_future := Some (action_id (Login uid user pass)) |},
        t1 ++ [Log_info;
               Transport_write (action_encoded (Login uid user pass));
               Add_done_callback (action_id (Login uid user pass)) Done_login;
               Call_later 10 Timer_ping]))
  /\ (forall m resp t,
        login (Resolved (Single resp)) m t
        = (Returns (msg_success (msg_data resp)),
           set_authenticated (msg_success (msg_data resp))
             (set_authenticated_future None m), t)).
Proof.
  split; [|reflexivity].
  intros uid tr m t m1 t1 user pass Hu Hs Hclose.
  assert (Hcfg : config m1 = config m).
  { revert Hclose. destruct (protocol m) as [p|] eqn:Hp.
    - rewrite (Manager_close_protocol m p t Hp).
      destruct (Connection_close p t) as [[r p'] t']. by intros [= _ <- _].
    - unfold Manager_close, bind, get. rewrite Hp. by intros [= <- <-]. }
  unfold Manager_connection_made. unfold bind at 1. rewrite Hclose.
  unfold bind at 1, emit at 1. unfold bind at 1, get at 1.
  unfold bind at 1, modify at 1. unfold bind at 1.
  rewrite Hcfg, Hu, Hs.
  cbv [bind modify emit ret get send_action on_protocol send update].
  simpl. unfold Login.
  cbv [set_authenticated_future set_protocol set_authenticated set_responses
       set_encoding set_queue Connection_connection_made]. simpl.
  rewrite Hcfg, insert_empty, <- !app_assoc. reflexivity.
Qed.

End Claims_lifecycle.

Section Claims_lifecycle_sample.
#[local] Existing Instance reference.
Import Sample.

(** C9 on the sample objects: a Connection whose transport raises on
    [close()] is closed by the first call all the same, and the second call
    does nothing; a Manager without a protocol closes without effect. *)
Lemma close_idempotent_witness :
  (let c := set_closed true connection0 in
   Connection_close c [] = (Returns tt, c, []))
  /\ (let '(_, c1, t1) :=
          Connection_close
            (Connection_connection_made {| tr_close_raises := true |}) [] in
      closed c1 = true /\ Connection_close c1 t1 = (Returns tt, c1, t1))
  /\ Manager_close manager0 [] = (Returns tt, manager0, []).
Proof.
  split; [|split].
  - apply (proj1 close_idempotent). reflexivity.
  - apply (proj1 (proj2 close_idempotent)
             (Connection_connection_made {| tr_close_raises := true |}) []).
  - apply (proj1 (proj2 (proj2 close_idempotent))). reflexivity.
Defined.

(** C4 as stated fails: the Ping that was pending when the connection
    was lost is still pending afterwards. *)
Lemma connection_lost_leaves_pending :
  ~ pending_failed connection1
      (connection_lost (Some manager0) connection1 []).1.2.
Proof.
  intros Hfailed.
  destruct (Hfailed (Some (txt "1")) ping_action) as (a' & e & Hlook & Hfut).
  - vm_compute. reflexivity.
  - reflexivity.
  - vm_compute in Hlook. injection Hlook as <-. discriminate.
Qed.

(** C5 on the sample objects. *)
Lemma connection_lost_sleeps_witness :
  connection_lost (Some manager0) connection0 []
  = (Returns tt, set_closed true connection0,
     [Transport_close; Sleep 2; Connect])
  /\ Manager_connection_made (txt "1") (Raises OSError) manager0 []
     = (Returns tt, manager0, [Log_exception; Call_later 2 Timer_connect]).
Proof.
  apply (connection_lost_sleeps manager0 connection0 [] (txt "1"));
    reflexivity.
Defined.

(** C7 on the Manager of the repository's login tests, with the
    credentials [xx] and [xx]: the Login is sent on connection, and [login]
    sets the flag from a Success and from an Error response. *)
Lemma login_on_connect_witness :
  (Manager_connection_made (txt "1") (Returns transport0) manager0 []).2
  = [Log_info;
     Transport_write (action_encoded (Login (txt "1") (txt "xx") (txt "xx")));
     Add_done_callback (Some (txt "1")) Done_login;
     Call_later 10 Timer_ping]
  /\ (login (Resolved (Single (message (txt "Response: Success"))))
            manager0 []).1
     = (Returns true,
        set_authenticated true (set_authenticated_future None manager0))
  /\ (login (Resolved (Single (message (txt "Response: Error"))))
            manager0 []).1
     = (Returns false,
        set_authenticated false (set_authenticated_future None manager0)).
Proof.
  split; [|split].
  - rewrite (proj1 login_on_connect (txt "1") transport0 manager0 []
               manager0 [] (txt "xx") (txt "xx")); reflexivity.
  - exact (f_equal fst (proj2 login_on_connect manager0
                          (message (txt "Response: Success")) [])).
  - exact (f_equal fst (proj2 login_on_connect manager0
                          (message (txt "Response: Error")) [])).
Defined.

End Claims_lifecycle_sample.

(** * Further properties of the code *)

(** ** Splitting and the carry-over *)

Lemma partition_before sep s before after :
  sep <> [] ->
  partition sep s = Some (before, after) -> partition sep before = None.
Proof.
  intros Hsep. revert before after.
  induction s as [|x s IH]; intros before after; simpl.
  - destruct (startswith sep []) eqn:E; [|discriminate].
    apply startswith_spec in E as [r Hr]. symmetry in Hr.
    apply app_eq_nil in Hr as [-> _]. done.
  - destruct (startswith sep (x :: s)) eqn:E.
    + intros [= <- <-]. simpl.
      destruct sep as [|c cs]; [done|]. reflexivity.
    + destruct (partition sep s) as [[b a]|] eqn:P; [|discriminate].
      intros [= <- <-]. simpl.
      destruct (startswith sep (x :: b)) eqn:E'.
      * apply partition_spec in P. subst s.
        change (x :: b ++ sep ++ a) with ((x :: b) ++ sep ++ a) in E.
        by rewrite (startswith_app _ _ _ E') in E.
      * by rewrite (IH b a eq_refl).
Qed.

Lemma split_loop_fragments c cs s :
  Forall (fun x => partition (c :: cs) x = None) (split_loop c cs s).
Proof.
  induction s as [s IH] using (induction_ltof1 _ (@length char)).
  unfold ltof in IH. rewrite split_loop_step.
  destruct (partition (c :: cs) s) as [[b a]|] eqn:P.
  - constructor.
    + by apply (partition_before _ s b a).
    + apply IH. apply partition_spec in P. subst s.
      rewrite !length_app. simpl. lia.
  - by constructor.
Qed.

Lemma split_loop_join c cs s : join (c :: cs) (split_loop c cs s) = s.
Proof.
  induction s as [s IH] using (induction_ltof1 _ (@length char)).
  unfold ltof in IH. rewrite split_loop_step.
  destruct (partition (c :: cs) s) as [[b a]|] eqn:P; [|done].
  pose proof (split_loop_nonempty c cs a) as Hne.
  pose proof (partition_spec _ _ _ _ P) as Hs.
  assert (Hlen : (length a < length s)%nat)
    by (subst s; rewrite !length_app; simpl; lia).
  specialize (IH a Hlen).
  destruct (split_loop c cs a) as [|y l]; [done|].
  cbn [join]. cbn [join] in IH. by rewrite IH.
Qed.

(** [data.split(sep)] loses nothing and leaves no separator behind:
    there is at least one fragment, the fragments joined by the separator
    are the text again, and no fragment holds the separator. *)
Theorem split_join sep s :
  sep <> [] ->
  exists lines,
    split sep s = Some lines
    /\ lines <> []
    /\ join sep lines = s
    /\ Forall (fun x => partition sep x = None) lines.
Proof.
  destruct sep as [|c cs]; [done|]. intros _.
  exists (split_loop c cs s). split; [done|].
  split; [apply split_loop_nonempty|].
  split; [apply split_loop_join | apply split_loop_fragments].
Qed.

Lemma split_join_witness :
  exists lines,
    split [13; 10; 13; 10] (txt "a" ++ [13; 10; 13; 10; 13; 10] ++ txt "b")
    = Some lines
    /\ lines <> []
    /\ join [13; 10; 13; 10] lines
       = txt "a" ++ [13; 10; 13; 10; 13; 10] ++ txt "b"
    /\ Forall (fun x => partition [13; 10; 13; 10] x = None) lines.
Proof. apply (split_join [13; 10; 13; 10]). discriminate. Defined.

(** ** What receiving data can and cannot do *)

Section Steps.
Context `{Collaborators}.

Lemma steps_ret {S A} (R : S * Trace -> S * Trace -> Prop) (a : A) :
  Reflexive R -> steps R (@ret _ S A a).
Proof. intros HR s t. apply HR. Qed.

Lemma steps_raise {S A} (R : S * Trace -> S * Trace -> Prop) e :
  Reflexive R -> steps R (@raise _ S A e).
Proof. intros HR s t. apply HR. Qed.

Lemma steps_bind {S A B} (R : S * Trace -> S * Trace -> Prop)
    (f : M S A) (k : A -> M S B) :
  Transitive R -> steps R f -> (forall a, steps R (k a)) -> steps R (bind f k).
Proof.
  intros HT Hf Hk s t. unfold bind. specialize (Hf s t).
  destruct (f s t) as [[[a|e] s'] t']; simpl in *; [|done].
  etrans; [exact Hf|]. apply Hk.
Qed.

Lemma steps_for_each {S A} (R : S * Trace -> S * Trace -> Prop)
    (l : list A) (body : A -> M S unit) :
  Reflexive R -> Transitive R ->
  (forall x, steps R (body x)) -> steps R (for_each l body).
Proof.
  intros HR HT Hb. induction l as [|x l IH]; simpl.
  - by apply steps_ret.
  - apply steps_bind; auto.
Qed.

(** [data_received] written out: the queue, the split, the loop. *)
Lemma data_received_unfold factory data c t :
  data_received factory data c t =
  let text := decode (default Ascii (encoding c)) data in
  let '(text, c0) :=
    match queue c with
    | [] => (text, c)
    | item :: rest => (item ++ text, set_queue rest c)
    end in
  match split (EOL ++ EOL) text with
  | Some lines =>
      for_each (removelast lines) (handle_line factory)
               (set_queue (queue c0 ++ [List.last lines []]) c0) t
  | None => (Raises ValueError, c0, t)
  end.
Proof.
  unfold data_received, bind, get, modify, ret, raise.
  destruct (queue c); cbv zeta beta iota; destruct (split _ _); reflexivity.
Qed.

(** The moves of the receiving path: if a relation on the Connection and
    its trace is reflexive and transitive and contains each of them, every
    call of [data_received] is a step of it. *)
Section Receiving_path.
Variable R : Connection * Trace -> Connection * Trace -> Prop.
Variable factory : option Manager.
Hypothesis R_refl : Reflexive R.
Hypothesis R_trans : Transitive R.
Hypothesis R_queue : forall c t q, R (c, t) (set_queue q c, t).
Hypothesis R_log : forall c t m, R (c, t) (c, t ++ [Log_message m]).
Hypothesis R_accumulate : forall c t key response message,
  responses c !! key = Some response ->
  R (c, t)
    (set_responses
       (<[key := (add_message response message).1]> (responses c)) c, t).
Hypothesis R_pop : forall c t key,
  R (c, t) (set_responses (delete key (responses c)) c, t).
Hypothesis R_dispatch : forall c t m message,
  factory = Some m -> R (c, t) (c, (dispatch m message t).2).

Lemma route_steps message : steps R (route factory message).
Proof using All.
  intros c t. rewrite route_lookup.
  destruct (responses c !! msg_id (msg_data message)) as [response|] eqn:Hl.
  - pose proof (R_accumulate c t _ response message Hl) as Hacc.
    destruct (add_message response message) as [response' completed].
    simpl in Hacc. cbv [bind modify pop get raise ret].
    cbn [responses set_responses].
    destruct completed; [|exact Hacc].
    destruct (_ !! action_id response'); simpl; [|exact Hacc].
    etrans; [exact Hacc|].
    exact (R_pop (set_responses
                    (<[msg_id (msg_data message) := response']> (responses c))
                    c) t (action_id response')).
  - destruct (msg_contains_Event _); [|apply R_refl].
    destruct factory as [m|] eqn:Hf; [|apply R_refl].
    unfold bind, on_event, ret.
    pose proof (R_dispatch c t m message eq_refl) as Hd.
    destruct (dispatch m message t) as [[[matches|e] ev] t']; exact Hd.
Qed.

Lemma handle_line_steps line : steps R (handle_line factory line).
Proof using All.
  unfold handle_line. apply steps_bind; [done| |].
  - intros c t. apply R_log.
  - intros _. destruct (from_line _); simpl;
      [apply route_steps | by apply steps_ret].
Qed.

Lemma data_received_steps data : steps R (data_received factory data).
Proof using All.
  intros c t. rewrite data_received_unfold.
  pose proof (fun l => steps_for_each R l (handle_line factory)
                         R_refl R_trans handle_line_steps) as Hlines.
  cbv zeta. destruct (queue c) as [|item rest].
  - destruct (split _ _) as [lines|]; [|exact (R_refl _)].
    etrans; [|apply Hlines]. apply R_queue.
  - destruct (split _ _) as [lines|]; [|apply R_queue].
    etrans; [|apply Hlines]. etrans; apply R_queue.
Qed.

End Receiving_path.
End Steps.

Section Receiving.
Context `{Collaborators}.

#[local] Instance only_adds_refl {S} : Reflexive (@only_adds _ S).
Proof. intros [s t]. exists []. by rewrite app_nil_r. Qed.

#[local] Instance only_adds_trans {S} : Transitive (@only_adds _ S).
Proof.
  intros [s1 t1] [s2 t2] [s3 t3] (a1 & H1 & Hok1) (a2 & H2 & Hok2).
  simpl in *. subst. exists (a1 ++ a2). split; [by rewrite app_assoc|].
  by apply Forall_app.
Qed.







(** [data_received] keeps the pending table filed by identifier, when
    accumulation leaves the identifier of an Action alone: every Action
    still pending after a call is found under its own identifier. *)
Theorem data_received_filed factory data c t :
  (forall a m, action_id (add_message a m).1 = action_id a) ->
  filed_by_id c ->
  filed_by_id (data_received factory data c t).1.2.
Proof.
  intros Hadd.
  apply (data_received_steps
           (fun x y => filed_by_id x.1 -> filed_by_id y.1) factory).
  - by intros x.
  - intros x y z H1 H2 Hx. auto.
  - by intros c0 t0 q.
  - by intros c0 t0 m.
  - intros c0 t0 key response message Hl Hc key' a. simpl.
    rewrite lookup_insert. case_decide as Hk.
    + intros [= <-]. rewrite Hadd, <- Hk. by apply Hc.
    + apply Hc.
  - intros c0 t0 key Hc key' a. simpl.
    rewrite lookup_delete. case_decide; [done | apply Hc].
  - by intros c0 t0 m message _.
Qed.

Lemma Forall_last {A} (P : A -> Prop) (l : list A) d :
  l <> [] -> Forall P l -> P (List.last l d).
Proof.
  intros Hne Hl. rewrite (app_removelast_last d Hne) in Hl.
  apply Forall_app in Hl as [_ Hl]. by inversion Hl.
Qed.

(** After [data_received] the queue holds one text, in which the block
    delimiter does not occur: every complete block has been taken out, and
    this whether the call returned or raised. *)
Theorem carry_over_has_no_block factory data c t :
  EOL <> [] -> (length (queue c) <= 1)%nat ->
  exists carry,
    queue (data_received factory data c t).1.2 = [carry]
    /\ partition (EOL ++ EOL) carry = None.
Proof.
  intros HE Hq. destruct (delimiter_nonempty HE) as (sc & scs & HEE).
  rewrite (data_received_lines factory data c t sc scs HEE Hq), HEE.
  cbv zeta.
  set (lines := split_loop sc scs _).
  exists (List.last lines []). split.
  - destruct (framed_lines factory (removelast lines)) as [H1 _].
    rewrite H1. by destruct (for_each _ _ c t) as [[r c'] t'].
  - apply Forall_last; [apply split_loop_nonempty|].
    apply split_loop_fragments.
Qed.

(** A chunk that brings no delimiter is only stored: the carry-over
    grows by the decoded chunk, no message is decoded, nothing else
    changes. *)
Theorem data_received_incomplete factory data c t :
  EOL <> [] -> (length (queue c) <= 1)%nat ->
  partition (EOL ++ EOL)
    (hd [] (queue c) ++ decode (default Ascii (encoding c)) data) = None ->
  data_received factory data c t
  = (Returns tt,
     set_queue [hd [] (queue c) ++ decode (default Ascii (encoding c)) data] c,
     t).
Proof.
  intros HE Hq Hnone. destruct (delimiter_nonempty HE) as (sc & scs & HEE).
  rewrite (data_received_lines factory data c t sc scs HEE Hq).
  rewrite HEE in Hnone. cbv zeta. rewrite split_loop_step, Hnone.
  reflexivity.
Qed.

End Receiving.

(** ** Sending, and the answer that completes *)

Section Sending.
Context `{Collaborators}.

(** [send] writes the encoded Action once, files it under its
    identifier, whatever was filed there before, and returns that
    identifier as the handle; the other entries of the table stay. It does
    so on a closed Connection too: the closed flag is not consulted. *)
Theorem send_files uid data as_list c t :
  let a := sent_action uid data as_list in
  (send uid data as_list c t).1.1 = Returns (action_id a)
  /\ (send uid data as_list c t).2 = t ++ [Transport_write (action_encoded a)]
  /\ responses (send uid data as_list c t).1.2 !! action_id a = Some a
  /\ (forall key, key <> action_id a ->
        responses (send uid data as_list c t).1.2 !! key = responses c !! key)
  /\ closed (send uid data as_list c t).1.2 = closed c.
Proof.
  unfold send, sent_action, bind, emit, modify, ret; simpl.
  repeat split.
  - apply lookup_insert_eq.
  - intros key Hne. by apply lookup_insert_ne.
Qed.

(** Sending under a fresh identifier and then receiving a message that
    bears it and completes the Action leaves the Connection exactly as it
    was before the send: the table is back to what it held. *)
Theorem send_then_response factory uid data as_list c t message a' :
  let a := sent_action uid data as_list in
  responses c !! action_id a = None ->
  msg_id (msg_data message) = action_id a ->
  add_message a message = (a', true) ->
  action_id a' = action_id a ->
  let '(_, c1, t1) := send uid data as_list c t in
  route factory message c1 t1 = (Returns tt, c, t1).
Proof.
  intros a Hfresh Hid Hadd Hid'.
  change (send uid data as_list c t)
    with (Returns (action_id a),
          set_responses (<[action_id a := a]> (responses c)) c,
          t ++ [Transport_write (action_encoded a)]).
  cbv beta iota. rewrite route_lookup. cbn [responses set_responses].
  rewrite Hid, lookup_insert_eq, Hadd.
  cbv [bind modify pop get raise ret]. cbn [responses set_responses].
  rewrite Hid', lookup_insert_eq. cbn [responses set_responses].
  rewrite insert_insert_eq, delete_insert_eq, delete_id by done.
  by destruct c.
Qed.

End Sending.

(** ** The registry, continued *)

Section Registry_more.
Context `{Collaborators}.

Lemma matching_registration p f m event :
  matching (registration p f m) event
  = matching m event
    ++ (if re_match (re_compile_translate p) (msg_event (msg_data event))
        then [p] else []).
Proof.
  unfold matching. rewrite patterns_registration, List.filter_app, map_app.
  simpl. by destruct (re_match _ _).
Qed.

(** A registration takes effect and keeps the earlier ones: after
    [register_event(p, f)], an event that [p] matches returns what it
    returned before followed by [p], and [f] is called with the event and
    the Manager. *)
Theorem register_then_dispatch m p f event t :
  let m' := (register_event p (Some f) m []).1.2 in
  no_raise m' event ->
  re_match (re_compile_translate p) (msg_event (msg_data event)) = true ->
  (dispatch m' event t).1.1 = Returns (matching m event ++ [p])
  /\ Call f (set_manager (self_ref m) event) (self_ref m)
     ∈ (dispatch m' event t).2.
Proof.
  intros m' Hno Hmatch.
  change m' with (registration p f m) in *.
  rewrite (dispatch_returns _ _ _ Hno). cbn [fst snd].
  rewrite matching_registration, Hmatch. split; [done|].
  apply elem_of_app. right.
  unfold dispatch_calls. rewrite patterns_registration, flat_map_app.
  apply elem_of_app. right. simpl. rewrite Hmatch, app_nil_r.
  rewrite callbacks_of_registration.
  apply list_elem_of_In, in_flat_map.
  exists f. split; apply list_elem_of_In.
  - apply elem_of_app. right. by apply list_elem_of_singleton.
  - unfold calls. apply list_elem_of_fmap. exists f. split; [done|].
    apply elem_of_app. right. by apply list_elem_of_singleton.
Qed.

Lemma dispatch_loop_no_match m ps matches event t :
  Forall (fun pr => re_match pr.2 (msg_event (msg_data event)) = false) ps ->
  dispatch_loop m ps matches event t = (Returns matches, event, t).
Proof.
  induction 1 as [|[p re] ps Hp Hps IH]; [done|].
  simpl in Hp. cbn [dispatch_loop]. unfold bind at 1, get. by rewrite Hp.
Qed.

(** An event that no registered pattern matches calls nothing and
    returns the empty list, whatever the callbacks would do; it still gets
    its [manager] attribute. *)
Theorem dispatch_no_match m event t :
  matching m event = [] ->
  dispatch m event t = (Returns [], set_manager (self_ref m) event, t).
Proof.
  intros Hnone. unfold dispatch, bind, modify.
  apply dispatch_loop_no_match.
  unfold matching in Hnone. apply fmap_nil_inv in Hnone.
  apply Forall_forall. intros pr Hin.
  destruct (re_match pr.2 (msg_event (msg_data event))) eqn:Hm; [|done].
  assert (In pr (List.filter
            (fun pr => re_match pr.2 (msg_event (msg_data event)))
            (patterns m))) as Hf
    by (apply filter_In; split; [by apply list_elem_of_In | done]).
  rewrite Hnone in Hf. destruct Hf.
Qed.

Lemma call_eq cb self event t :
  call cb self event t
  = (if cb_raises cb event then Raises CallbackError else Returns tt,
     event, t ++ [Call cb event self]).
Proof.
  unfold call, bind, get, emit, raise, ret. by destruct (cb_raises cb event).
Qed.

Lemma for_each_cons {S A} (x : A) (l : list A) (body : A -> M S unit) s t :
  for_each (x :: l) body s t
  = match body x s t with
    | (Returns _, s', t') => for_each l body s' t'
    | (Raises e, s', t') => (Raises e, s', t')
    end.
Proof. reflexivity. Qed.

(** A run of callbacks returns, or raises what a callback raised; the
    event is the same afterwards. *)
Lemma calls_outcome self (cbs : list Callback) event t :
  exists r t',
    for_each cbs (fun cb => call cb self) event t = (r, event, t')
    /\ (r = Returns tt \/ r = Raises CallbackError).
Proof.
  revert t; induction cbs as [|cb cbs IH]; intros t.
  - exists (Returns tt), t. by split; [|left].
  - rewrite for_each_cons, call_eq.
    destruct (cb_raises cb event); [|apply IH].
    eexists _, _. by split; [|right].
Qed.

Lemma calls_raise self (cbs : list Callback) cb event t :
  cb ∈ cbs -> cb_raises cb event = true ->
  (for_each cbs (fun cb => call cb self) event t).1.1 = Raises CallbackError.
Proof.
  intros Hin Hraise. revert t.
  induction cbs as [|cb0 cbs IH]; intros t; [by apply elem_of_nil in Hin|].
  rewrite for_each_cons, call_eq.
  destruct (cb_raises cb0 event) eqn:H0; [done|].
  apply IH. apply elem_of_cons in Hin as [->|]; [congruence | done].
Qed.

(** The same for the doubled loop of one registry entry. *)
Lemma entry_outcome self (outer cbs : list Callback) event t :
  exists r t',
    for_each outer (fun _ => for_each cbs (fun cb => call cb self)) event t
    = (r, event, t')
    /\ (r = Returns tt \/ r = Raises CallbackError).
Proof.
  revert t; induction outer as [|x outer IH]; intros t.
  - exists (Returns tt), t. by split; [|left].
  - rewrite for_each_cons.
    destruct (calls_outcome self cbs event t) as (r & t' & -> & [-> | ->]).
    + apply IH.
    + eexists _, _. by split; [|right].
Qed.

Lemma entry_raises self (outer cbs : list Callback) cb event t :
  outer <> [] -> cb ∈ cbs -> cb_raises cb event = true ->
  (for_each outer (fun _ => for_each cbs (fun cb => call cb self)) event t).1.1
  = Raises CallbackError.
Proof.
  intros Hne Hin Hraise. destruct outer as [|x outer]; [done|].
  rewrite for_each_cons.
  pose proof (calls_raise self cbs cb event t Hin Hraise) as Hr.
  destruct (for_each cbs _ event t) as [[[[]|e] ev] t']; simpl in Hr;
    [discriminate|]. simpl. congruence.
Qed.

Lemma dispatch_loop_cons m p re ps matches event t :
  dispatch_loop m ((p, re) :: ps) matches event t
  = if re_match re (msg_event (msg_data event)) then
      match for_each (callbacks_of m p) (fun _ =>
              for_each (callbacks_of m p) (fun callback =>
                call callback (self_ref m))) event t with
      | (Returns _, event', t') =>
          dispatch_loop m ps (matches ++ [p]) event' t'
      | (Raises e, event', t') => (Raises e, event', t')
      end
    else dispatch_loop m ps matches event t.
Proof.
  cbn [dispatch_loop]. unfold bind at 1, get.
  by destruct (re_match re (msg_event (msg_data event))).
Qed.

(** A callback that raises makes [dispatch] raise: if some callback
    filed under a matching pattern raises on the event, [dispatch] does not
    return its list of matches. *)
Theorem dispatch_raises m event t pattern regexp cb :
  (pattern, regexp) ∈ patterns m ->
  re_match regexp (msg_event (msg_data event)) = true ->
  cb ∈ callbacks_of m pattern ->
  cb_raises cb (set_manager (self_ref m) event) = true ->
  (dispatch m event t).1.1 = Raises CallbackError.
Proof.
  intros Hin Hmatch Hcb Hraise. unfold dispatch, bind, modify.
  set (e := set_manager (self_ref m) event) in *.
  change (msg_event (msg_data event)) with (msg_event (msg_data e)) in Hmatch.
  generalize (@nil text) as matches. revert t.
  induction (patterns m) as [|[p re] ps IH]; intros t matches;
    [by apply elem_of_nil in Hin|].
  rewrite dispatch_loop_cons.
  apply elem_of_cons in Hin as [[= <- <-]|Hin].
  - rewrite Hmatch.
    assert (Hne : callbacks_of m pattern <> []).
    { intros Hnil. rewrite Hnil in Hcb. by apply elem_of_nil in Hcb. }
    pose proof (entry_raises (self_ref m) (callbacks_of m pattern)
                  (callbacks_of m pattern) cb e t Hne Hcb Hraise) as Hr.
    destruct (for_each (callbacks_of m pattern) _ e t) as [[[[]|e0] ev] t'];
      simpl in Hr |- *; [discriminate Hr | by injection Hr as ->].
  - destruct (re_match re (msg_event (msg_data e))); [|by apply IH].
    destruct (entry_outcome (self_ref m) (callbacks_of m p)
                (callbacks_of m p) e t) as (r & t' & -> & [-> | ->]).
    + by apply IH.
    + done.
Qed.

End Registry_more.

(** ** Registrations under distinct pattern strings *)

Section Distinct_patterns.
Context `{Collaborators}.

Lemma register_all_cons r regs m :
  register_all (r :: regs) m = register_all regs (registration r.1 r.2 m).
Proof. reflexivity. Qed.

Lemma self_ref_register_all regs m :
  self_ref (register_all regs m) = self_ref m.
Proof.
  revert m; induction regs as [|r regs IH]; intros m; [done|].
  by rewrite register_all_cons, IH.
Qed.

Lemma patterns_register_all regs m :
  patterns (register_all regs m)
  = patterns m ++ map (fun r => (r.1, re_compile_translate r.1)) regs.
Proof.
  revert m; induction regs as [|r regs IH]; intros m.
  - simpl. by rewrite app_nil_r.
  - rewrite register_all_cons, IH, patterns_registration.
    simpl. by rewrite <- app_assoc.
Qed.

Lemma callbacks_of_register_all regs m p :
  callbacks_of (register_all regs m) p
  = callbacks_of m p
    ++ map snd (List.filter (fun r => bool_decide (r.1 = p)) regs).
Proof.
  revert m; induction regs as [|r regs IH]; intros m.
  - simpl. by rewrite app_nil_r.
  - rewrite register_all_cons, IH. simpl. case_bool_decide as Hp.
    + rewrite <- Hp, callbacks_of_registration. simpl.
      by rewrite <- app_assoc.
    + by rewrite callbacks_of_registration_ne.
Qed.

Lemma filter_unique (regs : list (text * Callback)) r :
  NoDup (map fst regs) -> r ∈ regs ->
  List.filter (fun r' => bool_decide (r'.1 = r.1)) regs = [r].
Proof.
  induction regs as [|r0 regs IH]; intros Hnd Hin;
    [by apply elem_of_nil in Hin|].
  simpl in Hnd. apply NoDup_cons in Hnd as [Hfresh Hnd].
  assert (Hrest : forall x, x ∈ regs -> x.1 = r0.1 -> False).
  { intros x Hx Heq. apply Hfresh. rewrite <- Heq.
    by apply (list_elem_of_fmap_2 fst). }
  simpl. apply elem_of_cons in Hin as [->|Hin].
  - rewrite bool_decide_true by done. f_equal.
    clear IH Hfresh Hnd. induction regs as [|x regs IH]; [done|]. simpl.
    rewrite bool_decide_false.
    + apply IH. intros y Hy. apply Hrest. by right.
    + intros Heq. apply (Hrest x); [by left | done].
  - rewrite bool_decide_false; [by apply IH|].
    intros Heq. by apply (Hrest r).
Qed.

(** With every pattern string registered once, [dispatch] does what is
    expected of it: on a new Manager on which [register_event] has been
    called for each pair of [regs], the pattern strings being distinct, an
    event on which no callback raises makes exactly one call per matching
    registration, in registration order, with the event and the Manager,
    and the matching pattern strings are returned in that order. *)
Theorem dispatch_once_per_pattern ref cfg regs event t :
  let m := register_all regs (Manager_init ref cfg) in
  let e := set_manager ref event in
  NoDup (map fst regs) ->
  (forall r, r ∈ regs -> cb_raises r.2 e = false) ->
  dispatch m event t
  = (Returns
       (map fst (List.filter
          (fun r => re_match (re_compile_translate r.1)
                             (msg_event (msg_data event))) regs)),
     e, t ++ due_calls ref e regs).
Proof.
  intros m e Hnd Hreturn.
  assert (Hself : self_ref m = ref) by apply self_ref_register_all.
  assert (Hps : patterns m
                = map (fun r => (r.1, re_compile_translate r.1)) regs)
    by (unfold m; by rewrite patterns_register_all).
  assert (Hcbs : forall p, callbacks_of m p
            = map snd (List.filter (fun r => bool_decide (r.1 = p)) regs)).
  { intros p. unfold m. rewrite callbacks_of_register_all.
    unfold callbacks_of, Manager_init; simpl. by rewrite lookup_empty. }
  assert (Hone : forall r, r ∈ regs -> callbacks_of m r.1 = [r.2]).
  { intros r Hr. by rewrite Hcbs, (filter_unique regs r Hnd Hr). }
  rewrite dispatch_returns.
  - rewrite Hself. fold e. f_equal; [f_equal|].
    + f_equal. unfold matching. rewrite Hps. clear.
      induction regs as [|r regs IH]; [done|]. simpl.
      destruct (re_match _ _); simpl; by rewrite IH.
    + f_equal. rewrite Hps. clear -Hone Hself.
      assert (Hsub : forall r, r ∈ regs -> r ∈ regs) by done.
      revert Hsub. generalize regs at 1 3 4 as l.
      induction l as [|r l IH]; intros Hsub; [done|].
      simpl. rewrite IH by (intros; apply Hsub; by right).
      destruct (re_match _ _); [|done].
      rewrite (Hone r) by (apply Hsub; by left). simpl.
      by rewrite Hself.
  - intros p re cb Hin _ Hcb. rewrite Hself. fold e.
    rewrite Hcbs in Hcb.
    apply list_elem_of_fmap in Hcb as (r & -> & Hr).
    apply Hreturn. apply list_elem_of_In in Hr.
    apply filter_In in Hr as [Hr _]. by apply list_elem_of_In.
Qed.

End Distinct_patterns.

(** ** The life cycle, continued *)

Section Lifecycle_more.
Context `{Collaborators}.

(** [connection_lost] asks the Manager to connect in one case only: the
    Connection was open, its transport closed without raising, and there is
    a factory; the sleep comes before, whether or not there is a factory.
    The Connection is closed afterwards in every case. And once [close()]
    has run, returning or raising, a later [connection_lost] does nothing:
    a Connection closed on purpose is not reconnected. *)
Theorem connection_lost_reconnects factory c t :
  (exists added,
     (connection_lost factory c t).2 = t ++ added
     /\ (Connect ∈ added <->
         closed c = false /\ tr_close_raises (transport c) = false
         /\ is_Some factory)
     /\ (Sleep 2 ∈ added <->
         closed c = false /\ tr_close_raises (transport c) = false))
  /\ (closed c = false -> closed (connection_lost factory c t).1.2 = true)
  /\ (forall t0 t1,
        connection_lost factory (Connection_close c t0).1.2 t1
        = (Returns tt, (Connection_close c t0).1.2, t1)).
Proof.
  split; [|split].
  - destruct c as [[raises] is_closed q rs enc].
    destruct is_closed, raises, factory as [m|];
      cbv [connection_lost Connection_close bind get emit modify raise ret];
      simpl;
      [exists [] | exists [] | exists [] | exists []
       | exists [Transport_close] | exists [Transport_close]
       | exists [Transport_close; Sleep 2; Connect]
       | exists [Transport_close; Sleep 2]];
      (split; [by rewrite <- ?app_assoc, ?app_nil_r|]);
      rewrite ?elem_of_cons, ?elem_of_nil;
      (split; split; intros Hx; try done;
       repeat match goal with
              | H : _ /\ _ |- _ => destruct H
              | H : _ \/ _ |- _ => destruct H
              | H : is_Some None |- _ => by destruct H
              end;
       try discriminate; try done; auto 10).
  - intros Hc. destruct c as [[raises] is_closed q rs enc].
    simpl in Hc. subst. by destruct raises, factory.
  - intros t0 t1. pose proof (Connection_close_closes c t0) as Hc.
    destruct (Connection_close c t0) as [[r c1] t']. simpl in *.
    unfold connection_lost, bind, get. by rewrite Hc.
Qed.

(** A configuration with [username] and without [secret]: building the
    Login raises [KeyError]. By then the new protocol is installed and the
    authenticated flag cleared; nothing has been written to the transport
    and the keepalive is not scheduled. *)
Theorem connection_made_missing_secret uid tr m t m1 t1 user :
  username (config m) = Some user ->
  secret (config m) = None ->
  Manager_close m t = (Returns tt, m1, t1) ->
  Manager_connection_made uid (Returns tr) m t
  = (Raises KeyError,
     set_authenticated false
       (set_protocol (Some
          {| transport := tr; closed := false; queue := []; responses := ∅;
             encoding := Some (cfg_encoding (config m)) |}) m1),
     t1 ++ [Log_info]).
Proof.
  intros Hu Hs Hclose.
  assert (Hcfg : config m1 = config m).
  { revert Hclose. destruct (protocol m) as [p|] eqn:Hp.
    - rewrite (Manager_close_protocol m p t Hp).
      destruct (Connection_close p t) as [[r p'] t']. by intros [= _ <- _].
    - unfold Manager_close, bind, get. rewrite Hp. by intros [= <- <-]. }
  unfold Manager_connection_made. unfold bind at 1. rewrite Hclose.
  cbv [bind modify emit ret get raise]. cbn [config set_protocol].
  rewrite Hcfg, Hu, Hs. reflexivity.
Qed.


#[local] Instance keeps_registry_refl : Reflexive keeps_registry.
Proof. by intros [m t]. Qed.

#[local] Instance keeps_registry_trans : Transitive keeps_registry.
Proof.
  intros x y z (H1 & H2 & H3 & H4) (H5 & H6 & H7 & H8).
  unfold keeps_registry. by rewrite H5, H6, H7, H8.
Qed.

Lemma on_protocol_keeps {A} (f : M Connection A) :
  steps keeps_registry (on_protocol f).
Proof.
  intros m t. unfold on_protocol. destruct (protocol m) as [p|]; [|done].
  by destruct (f p t) as [[r p'] t'].
Qed.

Lemma emit_keeps e : steps keeps_registry (@emit _ Manager e).
Proof. by intros m t. Qed.

Ltac keeps :=
  repeat first
    [ apply steps_bind; [apply _| |intros ?]
    | apply on_protocol_keeps
    | apply emit_keeps
    | apply steps_ret, _
    | apply steps_raise, _
    | by intros ? ? ].

Lemma Manager_close_keeps : steps keeps_registry Manager_close.
Proof.
  unfold Manager_close. keeps. destruct (protocol _); keeps.
Qed.

(** Only [register_event] changes the registry: none of the other
    methods of the Manager changes the patterns, the callbacks filed under
    them, the configuration or the identity of the Manager, whether it
    returns or raises. Registrations survive a reconnection. *)
Theorem registry_survives uid f future action as_list kwargs command agi :
  steps keeps_registry (Manager_connection_made uid f)
  /\ steps keeps_registry (login future)
  /\ steps keeps_registry (ping uid)
  /\ steps keeps_registry (send_action uid action as_list kwargs)
  /\ steps keeps_registry (send_command uid command agi as_list)
  /\ steps keeps_registry Manager_close
  /\ steps keeps_registry connect.
Proof.
  refine (conj _ (conj _ (conj _ (conj _ (conj _ (conj _ _)))))).
  - unfold Manager_connection_made.
    apply steps_bind; [apply _|apply Manager_close_keeps|intros _].
    destruct f as [tr|[]]; keeps.
    destruct (username _); keeps. destruct (secret _); keeps.
  - unfold login. keeps. destruct future as [|[]| |]; keeps.
  - unfold ping. keeps.
  - unfold send_action. keeps.
  - unfold send_command, send_action. keeps.
  - apply Manager_close_keeps.
  - unfold connect. keeps.
Qed.

End Lifecycle_more.

(** ** The codec *)

Lemma decode_utf8_cons b0 r :
  decode_utf8 (b0 :: r) =
  if b0 <? 0x80 then b0 :: decode_utf8 r
  else if (0xC2 <=? b0) && (b0 <=? 0xDF) then
    match r with
    | [] => []
    | b1 :: r1 =>
        if is_cont b1
        then ((b0 - 0xC0) * 64 + (b1 - 0x80)) :: decode_utf8 r1
        else decode_utf8 r
    end
  else if (0xE0 <=? b0) && (b0 <=? 0xEF) then
    match r with
    | [] => []
    | b1 :: r1 =>
        if second_of_3 b0 b1 then
          match r1 with
          | [] => []
          | b2 :: r2 =>
              if is_cont b2
              then ((b0 - 0xE0) * 4096 + (b1 - 0x80) * 64 + (b2 - 0x80))
                   :: decode_utf8 r2
              else decode_utf8 r1
          end
        else decode_utf8 r
    end
  else if (0xF0 <=? b0) && (b0 <=? 0xF4) then
    match r with
    | [] => []
    | b1 :: r1 =>
        if second_of_4 b0 b1 then
          match r1 with
          | [] => []
          | b2 :: r2 =>
              if is_cont b2 then
                match r2 with
                | [] => []
                | b3 :: r3 =>
                    if is_cont b3
                    then ((b0 - 0xF0) * 262144 + (b1 - 0x80) * 4096
                          + (b2 - 0x80) * 64 + (b3 - 0x80))
                         :: decode_utf8 r3
                    else decode_utf8 r2
                end
              else decode_utf8 r1
          end
        else decode_utf8 r
    end
  else decode_utf8 r.
Proof. reflexivity. Qed.

(** The base-64 digits of a code point, as the encoder cuts it. *)
Lemma digits c :
  exists d0 d1 d2 q3,
    c mod 64 = d0 /\ (c / 64) mod 64 = d1 /\ (c / 4096) mod 64 = d2
    /\ c / 262144 = q3
    /\ c / 64 = d1 + 64 * (d2 + 64 * q3) /\ c / 4096 = d2 + 64 * q3
    /\ c = d0 + 64 * (d1 + 64 * (d2 + 64 * q3))
    /\ d0 < 64 /\ d1 < 64 /\ d2 < 64.
Proof.
  assert (H4096 : c / 4096 = c / 64 / 64)
    by (rewrite N.Div0.div_div; reflexivity).
  assert (H262144 : c / 262144 = c / 64 / 64 / 64)
    by (rewrite !N.Div0.div_div; reflexivity).
  rewrite H262144, H4096.
  pose proof (N.div_mod c 64 ltac:(discriminate)) as E0.
  pose proof (N.mod_lt c 64 ltac:(discriminate)) as L0.
  pose proof (N.div_mod (c / 64) 64 ltac:(discriminate)) as E1.
  pose proof (N.mod_lt (c / 64) 64 ltac:(discriminate)) as L1.
  pose proof (N.div_mod (c / 64 / 64) 64 ltac:(discriminate)) as E2.
  pose proof (N.mod_lt (c / 64 / 64) 64 ltac:(discriminate)) as L2.
  exists (c mod 64), ((c / 64) mod 64), ((c / 64 / 64) mod 64),
    (c / 64 / 64 / 64).
  repeat split; try done; lia.
Qed.

Ltac decide_tests :=
  repeat (cbn [andb];
          match goal with
          | |- context [N.ltb ?a ?b] => destruct (N.ltb_spec a b); try lia
          | |- context [N.leb ?a ?b] => destruct (N.leb_spec a b); try lia
          | |- context [N.eqb ?a ?b] => destruct (N.eqb_spec a b); try lia
          end).

(** One encoded character decodes to itself, whatever follows. *)
Lemma decode_encode_char c rest :
  is_scalar c = true ->
  decode_utf8 (Reference.encode_utf8 c ++ rest) = c :: decode_utf8 rest.
Proof.
  unfold is_scalar, Reference.encode_utf8. intros Hc.
  destruct (digits c)
    as (d0 & d1 & d2 & q3 & -> & -> & -> & -> & -> & -> & Hcv & L0 & L1 & L2).
  revert Hc. decide_tests; intros _;
    cbn [app]; rewrite decode_utf8_cons; cbv beta iota;
    unfold second_of_3, second_of_4, is_cont;
    decide_tests; f_equal; lia.
Qed.

Lemma encode_utf8_bytes c :
  is_scalar c = true -> Forall (fun b => b < 256) (Reference.encode_utf8 c).
Proof.
  unfold is_scalar, Reference.encode_utf8. intros Hc.
  destruct (digits c)
    as (d0 & d1 & d2 & q3 & -> & -> & -> & -> & -> & -> & Hcv & L0 & L1 & L2).
  revert Hc. decide_tests; intros _; repeat constructor; lia.
Qed.

Lemma to_bytes_to_N ns :
  Forall (fun b => b < 256) ns -> map Byte.to_N (Reference.to_bytes ns) = ns.
Proof.
  induction 1 as [|n ns Hn Hns IH]; [done|]. simpl. rewrite IH. f_equal.
  destruct (Byte.of_N n) as [b|] eqn:E; simpl.
  - by apply Byte.to_of_N.
  - apply Byte.of_N_None_iff in E. lia.
Qed.

(** Round trip of the codec: text made of scalar values, encoded as
    [str.encode('utf8')] does for [send], is decoded back to itself by
    [bytes.decode('utf8', 'ignore')] as [data_received] calls it: nothing
    is ignored in well-formed UTF-8 that arrives whole. *)
Theorem utf8_round_trip (s : text) :
  Forall (fun c => is_scalar c = true) s ->
  decode Utf8 (Reference.to_bytes (concat (map Reference.encode_utf8 s))) = s.
Proof.
  intros Hs. unfold decode. rewrite to_bytes_to_N.
  - induction Hs as [|c s Hc Hs IH]; [done|]. simpl.
    by rewrite decode_encode_char, IH.
  - induction Hs as [|c s Hc Hs IH]; [done|]. simpl.
    apply Forall_app. split; [by apply encode_utf8_bytes | done].
Qed.

(** ** The further properties on the sample objects *)

Section Further_samples.
#[local] Existing Instance reference.
Import Sample Sample_more.

Lemma carry_over_has_no_block_witness :
  exists carry,
    queue (data_received (Some manager0) stream connection0 []).1.2 = [carry]
    /\ partition (EOL ++ EOL) carry = None.
Proof.
  apply carry_over_has_no_block; [discriminate | simpl; lia].
Defined.

Lemma data_received_incomplete_witness :
  data_received (Some manager0) (list_byte_of_string "Event: Pe")
                connection0 []
  = (Returns tt, set_queue [txt "Event: Pe"] connection0, []).
Proof.
  apply (data_received_incomplete (Some manager0)
           (list_byte_of_string "Event: Pe") connection0 []);
    [discriminate | simpl; lia | reflexivity].
Defined.

Lemma data_received_filed_witness :
  filed_by_id (data_received (Some manager0) stream connection1 []).1.2.
Proof.
  apply data_received_filed.
  - intros a m. reflexivity.
  - intros key a Hl.
    change (responses connection1)
      with ({[ Some (txt "1") := ping_action ]} : gmap Key Reference.Action)
      in Hl.
    apply lookup_singleton_Some in Hl as [<- <-]. reflexivity.
Defined.

Lemma feed_ascii_invariant_witness :
  data_received (Some manager0) (concat ascii_chunks) plain_connection []
  = feed (Some manager0) ascii_chunks plain_connection [].
Proof.
  pose proof (feed_ascii_invariant (Some manager0)
                (list_byte_of_string "Event: Pe")
                [list_byte_of_string "erStatus" ++ crlf ++ [x0d];
                 [x0a] ++ list_byte_of_string "Event: Ne"]
                plain_connection []) as Hw.
  change (feed (Some manager0) ascii_chunks plain_connection [])
    with (feed (Some manager0)
            (list_byte_of_string "Event: Pe"
             :: [list_byte_of_string "erStatus" ++ crlf ++ [x0d];
                 [x0a] ++ list_byte_of_string "Event: Ne"])
            plain_connection []).
  destruct (feed _ _ plain_connection []) as [[[[]|e] c1] t1] eqn:E.
  - apply Hw; [discriminate | simpl; lia | reflexivity].
  - vm_compute in E. discriminate E.
Defined.

Lemma feed_utf8_invariant_witness :
  data_received (Some manager0) (concat ascii_chunks) connection0 []
  = feed (Some manager0) ascii_chunks connection0 [].
Proof.
  pose proof (feed_utf8_invariant (Some manager0)
                (list_byte_of_string "Event: Pe")
                [list_byte_of_string "erStatus" ++ crlf ++ [x0d];
                 [x0a] ++ list_byte_of_string "Event: Ne"]
                connection0 []) as Hw.
  change (feed (Some manager0) ascii_chunks connection0 [])
    with (feed (Some manager0)
            (list_byte_of_string "Event: Pe"
             :: [list_byte_of_string "erStatus" ++ crlf ++ [x0d];
                 [x0a] ++ list_byte_of_string "Event: Ne"])
            connection0 []).
  destruct (feed _ _ connection0 []) as [[[[]|e] c1] t1] eqn:E.
  - apply Hw; [discriminate | simpl; lia | reflexivity |].
    repeat (constructor; [repeat (constructor; [reflexivity|]); constructor|]).
    constructor.
  - vm_compute in E. discriminate E.
Defined.

Lemma send_then_response_witness :
  let '(_, c1, t1) :=
    send (txt "1") (Data_dict [(txt "Action", txt "Ping")]) false
         connection0 [] in
  route (Some manager0) Pong c1 t1 = (Returns tt, connection0, t1).
Proof.
  apply (send_then_response (Some manager0) (txt "1")
           (Data_dict [(txt "Action", txt "Ping")]) false connection0 []
           Pong (Reference.add_message ping_action Pong).1);
    vm_compute; reflexivity.
Defined.

Lemma register_then_dispatch_witness :
  (dispatch manager1 PeerStatus []).1.1 = Returns [txt "Peer*"]
  /\ Call f (set_manager 0%nat PeerStatus) 0%nat
     ∈ (dispatch manager1 PeerStatus []).2.
Proof.
  apply (register_then_dispatch manager0 (txt "Peer*") f PeerStatus []).
  - apply sample_callbacks_return, manager1_callbacks.
  - reflexivity.
Defined.

Lemma dispatch_no_match_witness :
  dispatch manager3 NoPeerStatus []
  = (Returns [], set_manager 0%nat NoPeerStatus, []).
Proof. apply (dispatch_no_match manager3 NoPeerStatus []). reflexivity. Defined.

Lemma dispatch_raises_witness :
  (dispatch manager3 PeerStatus []).1.1 = Raises CallbackError.
Proof.
  apply (dispatch_raises manager3 PeerStatus [] (txt "Peer*")
           (Reference.translate (txt "Peer*")) h).
  - apply list_elem_of_singleton. reflexivity.
  - reflexivity.
  - change (callbacks_of manager3 (txt "Peer*")) with [h].
    by apply list_elem_of_singleton.
  - reflexivity.
Defined.

Lemma dispatch_once_per_pattern_witness :
  dispatch (register_all registrations manager0) PeerStatus []
  = (Returns [txt "Peer*"], set_manager 0%nat PeerStatus,
     [Call f (set_manager 0%nat PeerStatus) 0%nat]).
Proof.
  apply (dispatch_once_per_pattern 0%nat config0 registrations PeerStatus []).
  - apply NoDup_cons. split; [|apply NoDup_singleton].
    intros Hin. apply list_elem_of_singleton in Hin. discriminate Hin.
  - intros r Hr. unfold registrations in Hr.
    rewrite !elem_of_cons, elem_of_nil in Hr.
    destruct Hr as [->|[->|[]]]; reflexivity.
Defined.

Lemma connection_made_missing_secret_witness :
  Manager_connection_made (txt "1") (Returns transport0) manager4 []
  = (Raises KeyError,
     set_authenticated false
       (set_protocol (Some
          {| transport := transport0; closed := false; queue := [];
             responses := ∅; encoding := Some Utf8 |}) manager4),
     [Log_info]).
Proof.
  apply (connection_made_missing_secret (txt "1") transport0 manager4 []
           manager4 [] (txt "xx")); reflexivity.
Defined.


Lemma utf8_round_trip_witness :
  decode Utf8 (Reference.to_bytes
                 (concat (map Reference.encode_utf8
                            (txt "Zo" ++ [233; 8364; 128512]))))
  = txt "Zo" ++ [233; 8364; 128512].
Proof.
  apply utf8_round_trip. repeat (constructor; [reflexivity|]). constructor.
Defined.

End Further_samples.
